(** * Pixelator: the canvas engine ([src/utils/canvasEngine.ts])

    A shallow embedding of [getClosestColor], [getHeartPath] and
    [processImage], and the properties of the rendering pipeline.

    Numbers.  Colour channels, seeds, grid indices and pixel indices are
    integers ([Z]).  Cell geometry, brightness, saturation and the jittered
    channels are fractional: they are carried as exact rationals ([Q]), the
    value the double would have without rounding error.  [NaN] arises in
    one place only (a sample read outside the pixel buffer) and is carried
    from there as [None]. *)

From Stdlib Require Import ZArith QArith Qround Qabs Qminmax List Bool Lia Lqa Reals.
From Stdlib Require Ascii String.
Import ListNotations.

Local Open Scope Z_scope.

(** ** JavaScript arithmetic *)

Module JS.

Definition Qltb (x y : Q) : bool := negb (Qle_bool y x).

(** [Math.floor], [Math.ceil], [Math.round] (halves go up). *)
Definition Math_floor (x : Q) : Z := Qfloor x.
Definition Math_ceil (x : Q) : Z := Qceiling x.
Definition Math_round (x : Q) : Z := Qfloor (x + (1 # 2)).

(** [a % b] on numbers: the remainder of the division truncated toward 0. *)
Definition Qtrunc (x : Q) : Z := Z.quot (Qnum x) (Zpos (Qden x)).
Definition rem (a b : Q) : Q := (a - b * inject_Z (Qtrunc (a / b)))%Q.

(** [arr[i]]: [undefined] outside [0 .. length-1]. *)
Definition index {A} (arr : list A) (i : Z) : option A :=
  if i <? 0 then None else nth_error arr (Z.to_nat i).

(** [for (i = 0; i < n; i++)] visits [range n]. *)
Definition range (n : Z) : list Z := map Z.of_nat (seq 0 (Z.to_nat n)).

End JS.

(** ** Data model *)

Inductive ShapeType := square | rectangle | circle | heart.
Inductive FilterType := none | noir | popart | rainbow.

Module RGB.
Record t := mk { r : Z; g : Z; b : Z }.
End RGB.

Record ProcessOptions := {
  gridSize : Z;
  shape : ShapeType;
  filter : FilterType;
  palette : list RGB.t;
  randomSeed : Z;
  zoom : Q;
  offsetX : Q;
  offsetY : Q;
  isDesaturated : option bool;
  saturation : option Q;
  brightness : option Q;
  blinkState : option bool
}.

Definition black : RGB.t := RGB.mk 0 0 0.
Definition white : RGB.t := RGB.mk 255 255 255.

Definition DESATURATE_PALETTE : list RGB.t :=
  [ RGB.mk 255 0 0;
    RGB.mk 255 255 0;
    RGB.mk 0 255 0;
    RGB.mk 0 0 255;
    RGB.mk 255 0 255;
    RGB.mk 0 0 0;
    RGB.mk 255 255 255 ].

(** ** getClosestColor *)

(** The value of [Math.sqrt(n)] for an integer [n], and [Infinity].  On the
    integers a sum of three squared channel differences can take, [Math.sqrt]
    is strictly increasing, so two distances compare as their radicands. *)
Inductive Distance :=
| Sqrt (radicand : Z)
| Infinity.

Definition dist_ltb (d m : Distance) : bool :=
  match d, m with
  | Sqrt x, Sqrt y => x <? y
  | Sqrt _, Infinity => true
  | Infinity, _ => false
  end.

Definition radicand_of (r g b : Z) (color : RGB.t) : Z :=
  (r - RGB.r color) ^ 2 + (g - RGB.g color) ^ 2 + (b - RGB.b color) ^ 2.

Definition closer (r g b : Z) (st : Distance * RGB.t) (color : RGB.t)
  : Distance * RGB.t :=
  let '(minDistance, closestColor) := st in
  let dist := Sqrt (radicand_of r g b color) in
  if dist_ltb dist minDistance then (dist, color) else (minDistance, closestColor).

Definition getClosestColor (r g b : Z) (palette : list RGB.t) : RGB.t :=
  match palette with
  | [] => RGB.mk r g b
  | first :: _ => snd (fold_left (closer r g b) palette (Infinity, first))
  end.

(** The Euclidean distance of the specification, as a real number. *)
Definition euclid (r g b : Z) (color : RGB.t) : R :=
  sqrt (IZR (radicand_of r g b color)).

(** ** Paths and the drawing surface *)

Inductive Angle :=
| radians (q : Q)
| times_PI (k : Q).

Inductive PathStep :=
| moveTo (x y : Q)
| bezierCurveTo (cp1x cp1y cp2x cp2y x y : Q)
| arc (x y radius : Q) (startAngle endAngle : Angle)
| rect (x y w h : Q)
| closePath.

Definition Path2D := list PathStep.

Definition getHeartPath (x y width height : Q) : Path2D :=
  let topCurveHeight := (height * 0.3)%Q in
  [ moveTo (x + width / 2) (y + topCurveHeight);
    (* top left curve *)
    bezierCurveTo (x + width / 2) (y + 0) (x + 0) (y + 0) (x + 0) (y + topCurveHeight);
    (* bottom left *)
    bezierCurveTo (x + 0) (y + height * 0.6) (x + width / 2) (y + height * 0.9)
                  (x + width / 2) (y + height);
    (* bottom right *)
    bezierCurveTo (x + width / 2) (y + height * 0.9) (x + width) (y + height * 0.6)
                  (x + width) (y + topCurveHeight);
    (* top right curve *)
    bezierCurveTo (x + width) (y + 0) (x + width / 2) (y + 0)
                  (x + width / 2) (y + topCurveHeight);
    closePath ]%Q.

(** What was painted on a canvas since its bitmap was last reset, oldest
    first.  [fillRoundRect] is [beginPath(); roundRect(..); fill()]. *)
Inductive DrawOp :=
| clearRect (x y w h : Q)
| fillRect (style : RGB.t) (x y w h : Q)
| fillRoundRect (style : RGB.t) (x y w h radii : Q).

(** An [HTMLCanvasElement] with the state of its 2D context.  [context2d]
    tells whether [getContext('2d')] returns a context. *)
Record Canvas := {
  context2d : bool;
  canvas_width : Z;
  canvas_height : Z;
  fillStyle : RGB.t;
  saved : list RGB.t;
  drawn : list DrawOp
}.

(** Assigning [canvas.width] or [canvas.height] clears the bitmap and puts
    the context back in its default state. *)
Definition set_width (w : Z) (c : Canvas) : Canvas :=
  {| context2d := context2d c; canvas_width := w; canvas_height := canvas_height c;
     fillStyle := RGB.mk 0 0 0; saved := []; drawn := [] |}.

Definition set_height (h : Z) (c : Canvas) : Canvas :=
  {| context2d := context2d c; canvas_width := canvas_width c; canvas_height := h;
     fillStyle := RGB.mk 0 0 0; saved := []; drawn := [] |}.

Definition set_fillStyle (style : RGB.t) (c : Canvas) : Canvas :=
  {| context2d := context2d c; canvas_width := canvas_width c;
     canvas_height := canvas_height c;
     fillStyle := style; saved := saved c; drawn := drawn c |}.

Definition paint (op : DrawOp) (c : Canvas) : Canvas :=
  {| context2d := context2d c; canvas_width := canvas_width c;
     canvas_height := canvas_height c;
     fillStyle := fillStyle c; saved := saved c; drawn := drawn c ++ [op] |}.

Definition save (c : Canvas) : Canvas :=
  {| context2d := context2d c; canvas_width := canvas_width c;
     canvas_height := canvas_height c;
     fillStyle := fillStyle c; saved := fillStyle c :: saved c; drawn := drawn c |}.

Definition restore (c : Canvas) : Canvas :=
  match saved c with
  | [] => c
  | style :: below =>
      {| context2d := context2d c; canvas_width := canvas_width c;
         canvas_height := canvas_height c;
         fillStyle := style; saved := below; drawn := drawn c |}
  end.

(** An [HTMLImageElement]: its size and its decoded RGBA bytes. *)
Record Image := {
  image_width : Z;
  image_height : Z;
  image_pixels : list Z
}.

(** What the engine takes from its host and does not define itself. *)
Record Browser := {
  (** [Math.sin], at the integer seeds it is called with *)
  Math_sin : Z -> Q;
  (** whether a new canvas element gives a 2D context *)
  offscreenContext2d : bool;
  (** [drawImage(image, sx, sy, sWidth, sHeight, 0, 0, w, h)] on the offscreen
      canvas, then the bytes [getImageData(0, 0, w, h).data] reads back *)
  resample : Image -> Q -> Q -> Q -> Q -> Z -> Z -> list Z;
  (** [ctx.isPointInPath(path, x, y)] under the identity transform *)
  isPointInPath : Path2D -> Q -> Q -> bool
}.

(** ** Exceptions and the state of the cell loop *)

Inductive Error := TypeError | IndexSizeError.

Inductive Completion (A : Type) :=
| Normal (a : A)
| Throw (e : Error).
Arguments Normal {A} a.
Arguments Throw {A} e.

(** The two things the cell loop updates: the running [seed] and the target
    context.  What was painted stays painted when a later cell throws. *)
Record Loop := { seed : Z; ctx : Canvas }.

Definition M (A : Type) : Type := Loop -> Loop * Completion A.

Definition ret {A} (a : A) : M A := fun s => (s, Normal a).

Definition bind {A B} (m : M A) (k : A -> M B) : M B :=
  fun s => match m s with
           | (s', Normal a) => k a s'
           | (s', Throw e) => (s', Throw e)
           end.

Definition lift {A} (c : Completion A) : M A := fun s => (s, c).

(** [seed++] as an expression: the value before the increment. *)
Definition nextSeed : M Z :=
  fun s => ({| seed := seed s + 1; ctx := ctx s |}, Normal (seed s)).

Definition onCtx (f : Canvas -> Canvas) : M unit :=
  fun s => ({| seed := seed s; ctx := f (ctx s) |}, Normal tt).

Declare Scope js_scope.
Delimit Scope js_scope with js.
Notation "x <- m ;; k" := (bind m (fun x => k))
  (at level 61, m at next level, right associativity) : js_scope.
Notation "m ;; k" := (bind m (fun _ => k))
  (at level 61, right associativity) : js_scope.

Fixpoint forEach {A} (l : list A) (body : A -> M unit) : M unit :=
  match l with
  | [] => ret tt
  | a :: rest => (body a ;; forEach rest body)%js
  end.

(** ** NaN *)

(** A number that may be [NaN] ([None]); arithmetic on it gives [NaN], a
    comparison with it is false. *)
Definition nan_map2 {A B C} (f : A -> B -> C) (x : option A) (y : option B) : option C :=
  match x, y with
  | Some a, Some b => Some (f a b)
  | _, _ => None
  end.

Definition nan_map3 {A B C D} (f : A -> B -> C -> D)
    (x : option A) (y : option B) (z : option C) : option D :=
  match x, y, z with
  | Some a, Some b, Some c => Some (f a b c)
  | _, _, _ => None
  end.

Definition nan_test {A} (p : A -> bool) (x : option A) : bool :=
  match x with
  | Some a => p a
  | None => false
  end.

Definition nan_gtb (x y : option Z) : bool :=
  match x, y with
  | Some a, Some b => a >? b
  | _, _ => false
  end.

(** The three channel variables [r], [g], [b] of the cell loop. *)
Definition Channels : Type := option Z * option Z * option Z.

Definition channels (c : RGB.t) : Channels :=
  (Some (RGB.r c), Some (RGB.g c), Some (RGB.b c)).

(** A call [getClosestColor(r, g, b, palette)] from the cell loop.  With a
    [NaN] argument every [dist] is [NaN] and [dist < minDistance] is false
    throughout: the loop leaves [closestColor = palette[0]]. *)
Definition closestChannels (rgb : Channels) (palette : list RGB.t) : Channels :=
  match rgb with
  | (Some r, Some g, Some b) => channels (getClosestColor r g b palette)
  | _ => match palette with
         | [] => rgb
         | first :: _ => channels first
         end
  end.

(** ** The cell sampler *)

Record Sample := {
  sum_r : option Z;
  sum_g : option Z;
  sum_b : option Z;
  count : Z
}.

(** The values [c] takes in [for (let c = 0; c < limit; c += step)]. *)
Fixpoint stride_from (fuel : nat) (c step : Z) (limit : Q) : list Z :=
  match fuel with
  | O => []
  | S fuel' =>
      if JS.Qltb (inject_Z c) limit then c :: stride_from fuel' (c + step) step limit
      else []
  end.

Definition stride (step : Z) (limit : Q) : list Z :=
  stride_from (Z.to_nat (Qceiling limit)) 0 step limit.

Definition samplePoint (imgData : list Z) (workWidth : Z) (workHeight : Q)
    (px py : Q) (cy : Z) (acc : Sample) (cx : Z) : Sample :=
  let sampleX := JS.Math_floor (px + inject_Z cx) in
  let sampleY := JS.Math_floor (py + inject_Z cy) in
  if (sampleX <? workWidth) && JS.Qltb (inject_Z sampleY) workHeight then
    let index := (sampleY * workWidth + sampleX) * 4 in
    {| sum_r := nan_map2 Z.add (sum_r acc) (JS.index imgData index);
       sum_g := nan_map2 Z.add (sum_g acc) (JS.index imgData (index + 1));
       sum_b := nan_map2 Z.add (sum_b acc) (JS.index imgData (index + 2));
       count := count acc + 1 |}
  else acc.

Definition cellStep (cellSize : Q) : Z := Z.max 1 (JS.Math_floor (cellSize / 4)).

Definition sampleCell (imgData : list Z) (workWidth : Z) (workHeight : Q)
    (cellSize px py : Q) : Sample :=
  let step := cellStep cellSize in
  fold_left
    (fun acc cy =>
       fold_left (samplePoint imgData workWidth workHeight px py cy)
                 (stride step cellSize) acc)
    (stride step cellSize)
    {| sum_r := Some 0; sum_g := Some 0; sum_b := Some 0; count := 0 |}.

Definition average (s : Sample) : Channels :=
  if count s >? 0 then
    let mean sum := JS.Math_round (inject_Z sum / inject_Z (count s)) in
    (option_map mean (sum_r s), option_map mean (sum_g s), option_map mean (sum_b s))
  else (sum_r s, sum_g s, sum_b s).

(** ** Brightness, saturation, clamp *)

Definition clamp255 (t : Q) : Z := Z.max 0 (Z.min 255 (JS.Math_round t)).

Definition adjust (options : ProcessOptions) (target : option Q * option Q * option Q)
  : Channels :=
  let '(targetR, targetG, targetB) := target in
  let brightness := match brightness options with Some v => v | None => 1%Q end in
  let saturation := match saturation options with Some v => v | None => 1%Q end in
  let targetR := option_map (fun t => t * brightness)%Q targetR in
  let targetG := option_map (fun t => t * brightness)%Q targetG in
  let targetB := option_map (fun t => t * brightness)%Q targetB in
  let grayVal :=
    nan_map3 (fun r g b => 0.2989 * r + 0.5870 * g + 0.1140 * b)%Q
             targetR targetG targetB in
  let targetR := nan_map2 (fun gray t => gray + saturation * (t - gray))%Q grayVal targetR in
  let targetG := nan_map2 (fun gray t => gray + saturation * (t - gray))%Q grayVal targetG in
  let targetB := nan_map2 (fun gray t => gray + saturation * (t - gray))%Q grayVal targetB in
  (option_map clamp255 targetR, option_map clamp255 targetG, option_map clamp255 targetB).

(** ** Style filter, desaturation, blink *)

(** [Math.round(r * 0.299 + g * 0.587 + b * 0.114)] *)
Definition luma (r g b : Z) : Z :=
  JS.Math_round (inject_Z r * 0.299 + inject_Z g * 0.587 + inject_Z b * 0.114)%Q.

Definition noirContrast (gray : Z) : Z :=
  if gray >? 128 then Z.min 255 (gray + 50) else Z.max 0 (gray - 50).

Definition isOrange (c : RGB.t) : bool :=
  (RGB.r c =? 255) && (RGB.g c =? 127) && (RGB.b c =? 0).

(** [palette[Math.min(index, palette.length - 1)]] for
    [index = Math.floor((bVal / 256) * palette.length)]. *)
Definition gradientIndex (bVal : Z) (palette : list RGB.t) : Z :=
  let index := JS.Math_floor (inject_Z bVal / 256 * inject_Z (Z.of_nat (length palette))) in
  Z.min index (Z.of_nat (length palette) - 1).

(** Reading [.r] of [undefined] throws. *)
Definition member (matched : option RGB.t) : Completion Channels :=
  match matched with
  | Some c => Normal (channels c)
  | None => Throw TypeError
  end.

Definition isPopart (f : FilterType) : bool :=
  match f with
  | popart => true
  | _ => false
  end.

Definition rainbowFilter (options : ProcessOptions) (rgb target : Channels)
  : Completion Channels :=
  let '(targetR, targetG, targetB) := target in
  let max := nan_map3 (fun r g b => Z.max (Z.max r g) b) targetR targetG targetB in
  let min := nan_map3 (fun r g b => Z.min (Z.min r g) b) targetR targetG targetB in
  let diff := nan_map2 Z.sub max min in
  let colBrightness := nan_map2 (fun hi lo => inject_Z (hi + lo) / 2)%Q max min in
  let first : Completion (bool * Channels) :=
    if nan_test (fun d => d <? 30) diff then
      if nan_test (fun v => JS.Qltb v 120) colBrightness
      then Normal (true, (Some 0, Some 0, Some 0))
      else Normal (true, (Some 255, Some 255, Some 255))
    else if nan_gtb targetR targetG
            && nan_gtb targetG targetB
            && nan_test (fun t => t >? 60) targetR
            && nan_test (fun d => d <? 120) diff then
      let orange := match find isOrange (palette options) with
                    | Some c => Some c
                    | None => JS.index (palette options) 0
                    end in
      match member orange with
      | Normal c => Normal (true, c)
      | Throw e => Throw e
      end
    else Normal (false, rgb) in
  match first with
  | Throw e => Throw e
  | Normal (styled, rgb) =>
      if negb styled || isPopart (filter options) then
        if (Z.of_nat (length (palette options)) >? 5) && (randomSeed options >? 0) then
          Normal (closestChannels target (palette options))
        else
          let bVal := nan_map3 luma targetR targetG targetB in
          member match bVal with
                 | Some bVal =>
                     JS.index (palette options) (gradientIndex bVal (palette options))
                 | None => None
                 end
      else Normal rgb
  end.

Definition styleFilter (options : ProcessOptions) (rgb target : Channels)
  : Completion Channels :=
  let '(targetR, targetG, targetB) := target in
  match filter options with
  | noir =>
      let gray := nan_map3 luma targetR targetG targetB in
      let contrast := option_map noirContrast gray in
      Normal (closestChannels (contrast, contrast, contrast) (palette options))
  | rainbow | popart => rainbowFilter options rgb target
  | none => Normal target
  end.

Definition desaturate (options : ProcessOptions) (rgb : Channels) : Channels :=
  match isDesaturated options with
  | Some true => closestChannels rgb DESATURATE_PALETTE
  | _ => rgb
  end.

Definition blink (options : ProcessOptions) (x y : Z) (rgb : Channels) : Channels :=
  let '(r, g, b) := rgb in
  match blinkState options with
  | Some true =>
      if (Z.rem (x + 1) 10 =? 0) || (Z.rem (y + 1) 10 =? 0) then
        let brightness := nan_map3 luma r g b in
        if nan_test (fun v => v >? 128) brightness
        then (Some 50, Some 50, Some 50)
        else (Some 255, Some 255, Some 255)
      else rgb
  | _ => rgb
  end.

(** [ctx.fillStyle = `rgb(${r}, ${g}, ${b})`]: a string that is not a colour
    (a channel printed as [NaN]) leaves [fillStyle] as it was. *)
Definition assignFillStyle (rgb : Channels) (c : Canvas) : Canvas :=
  match rgb with
  | (Some r, Some g, Some b) => set_fillStyle (RGB.mk r g b) c
  | _ => c
  end.

(** ** The engine, over a host *)

Definition MAX_WIDTH : Z := 1200.

(** The silhouette path of [processImage]; [None] is [shapePath = null]. *)
Definition silhouette (options : ProcessOptions) (workWidth : Z) (workHeight : Q)
  : option Path2D :=
  let minDim := Qmin (inject_Z workWidth) workHeight in
  match shape options with
  | circle =>
      Some [arc (inject_Z workWidth / 2) (workHeight / 2) (minDim / 2)
                (radians 0) (times_PI 2)]
  | heart => Some (getHeartPath 0 0 (inject_Z workWidth) workHeight)
  | square =>
      let sx := ((inject_Z workWidth - minDim) / 2)%Q in
      let sy := ((workHeight - minDim) / 2)%Q in
      Some [rect sx sy minDim minDim]
  | rectangle => None
  end.

Section Engine.

Variable browser : Browser.

(** [getImageData] throws on a rectangle without pixels; its sizes are
    converted to integers by dropping the fraction. *)
Definition getImageData (image : Image) (sx sy sWidth sHeight : Q)
    (workWidth : Z) (workHeight : Q) : Completion (list Z) :=
  if (workWidth =? 0) || (Qfloor workHeight =? 0) then Throw IndexSizeError
  else Normal (resample browser image sx sy sWidth sHeight workWidth (Qfloor workHeight)).

(** [prng]: the [seed++] inside it increments its own parameter after the
    use and changes nothing. *)
Definition prng (seed : Z) : Q :=
  let x := (Math_sin browser seed * 10000)%Q in
  (x - inject_Z (JS.Math_floor x))%Q.

(** [(target + prng(seed++) * 50) % 255] *)
Definition jitterChannel (target : option Q) : M (option Q) :=
  (s <- nextSeed ;;
   ret (option_map (fun t => JS.rem (t + prng s * 50) 255) target))%js.

Definition jitter (options : ProcessOptions) (rgb : Channels)
  : M (option Q * option Q * option Q) :=
  let '(r, g, b) := rgb in
  let targetR := option_map inject_Z r in
  let targetG := option_map inject_Z g in
  let targetB := option_map inject_Z b in
  if randomSeed options >? 0 then
    (targetR <- jitterChannel targetR ;;
     targetG <- jitterChannel targetG ;;
     targetB <- jitterChannel targetB ;;
     ret (targetR, targetG, targetB))%js
  else ret (targetR, targetG, targetB).

Definition isInside (shapePath : option Path2D) (drawX drawY drawSize : Q) : bool :=
  match shapePath with
  | Some path =>
      let c1 := isPointInPath browser path drawX drawY in
      let c2 := isPointInPath browser path (drawX + drawSize) drawY in
      let c3 := isPointInPath browser path drawX (drawY + drawSize) in
      let c4 := isPointInPath browser path (drawX + drawSize) (drawY + drawSize) in
      if negb c1 || negb c2 || negb c3 || negb c4 then false else true
  | None => true
  end.

Definition drawCell (options : ProcessOptions) (shapePath : option Path2D)
    (cellSize px py : Q) (c : Canvas) : Canvas :=
  let padding := (cellSize * 0.1)%Q in
  let drawSize := (cellSize - padding * 2)%Q in
  let drawX := (px + padding)%Q in
  let drawY := (py + padding)%Q in
  if isInside shapePath drawX drawY drawSize then
    match shape options with
    | square | rectangle =>
        paint (fillRoundRect (fillStyle c) drawX drawY drawSize drawSize (drawSize * 0.2)) c
    | circle =>
        paint (fillRoundRect (fillStyle c) drawX drawY drawSize drawSize (drawSize * 0.2)) c
    | heart =>
        paint (fillRoundRect (fillStyle c) drawX drawY drawSize drawSize (drawSize * 0.2)) c
    end
  else c.

(** Jitter, brightness, saturation, clamp. *)
Definition transform (options : ProcessOptions) (rgb : Channels) : M Channels :=
  (target <- jitter options rgb ;;
   ret (adjust options target))%js.

(** The colour of cell [(y, x)] up to the desaturation pass. *)
Definition cellColor (options : ProcessOptions) (imgData : list Z)
    (workWidth : Z) (workHeight cellSize : Q) (y x : Z) : M Channels :=
  let px := (inject_Z x * cellSize)%Q in
  let py := (inject_Z y * cellSize)%Q in
  let rgb := average (sampleCell imgData workWidth workHeight cellSize px py) in
  (target <- transform options rgb ;;
   rgb <- lift (styleFilter options rgb target) ;;
   ret (desaturate options rgb))%js.

(** One turn of the inner loop. *)
Definition cell (options : ProcessOptions) (imgData : list Z)
    (workWidth : Z) (workHeight : Q) (shapePath : option Path2D) (cellSize : Q)
    (y x : Z) : M unit :=
  let px := (inject_Z x * cellSize)%Q in
  let py := (inject_Z y * cellSize)%Q in
  (rgb <- cellColor options imgData workWidth workHeight cellSize y x ;;
   let rgb := blink options x y rgb in
   onCtx (assignFillStyle rgb) ;;
   onCtx (drawCell options shapePath cellSize px py))%js.

Definition grid (options : ProcessOptions) (imgData : list Z)
    (workWidth : Z) (workHeight : Q) (shapePath : option Path2D)
    (cellSize : Q) (rows : Z) : M unit :=
  forEach (JS.range rows) (fun y =>
    forEach (JS.range (gridSize options)) (fun x =>
      cell options imgData workWidth workHeight shapePath cellSize y x)).

Definition processImage (image : Image) (canvas : Canvas) (options : ProcessOptions)
  : Canvas * Completion unit :=
  if negb (context2d canvas) then (canvas, Normal tt) else
  let workWidth := image_width image in
  let workHeight := inject_Z (image_height image) in
  let '(workWidth, workHeight) :=
    if workWidth >? MAX_WIDTH then
      let ratio := (inject_Z MAX_WIDTH / inject_Z workWidth)%Q in
      (MAX_WIDTH, (workHeight * ratio)%Q)
    else (workWidth, workHeight) in
  let canvas := set_width workWidth canvas in
  let canvas := set_height (Qfloor workHeight) canvas in
  (* offscreen for sampling *)
  if negb (offscreenContext2d browser) then (canvas, Normal tt) else
  (* source rectangle for zoom and panning *)
  let zoom := if Qeq_bool (zoom options) 0 then 1%Q else zoom options in
  let sWidth := (inject_Z (image_width image) / zoom)%Q in
  let sHeight := (inject_Z (image_height image) / zoom)%Q in
  let sx := ((inject_Z (image_width image) - sWidth) / 2)%Q in
  let sy := ((inject_Z (image_height image) - sHeight) / 2)%Q in
  let sx := (sx + offsetX options * (inject_Z (image_width image) - sWidth))%Q in
  let sy := (sy + offsetY options * (inject_Z (image_height image) - sHeight))%Q in
  let sx := Qmax 0 (Qmin (inject_Z (image_width image) - sWidth) sx) in
  let sy := Qmax 0 (Qmin (inject_Z (image_height image) - sHeight) sy) in
  match getImageData image sx sy sWidth sHeight workWidth workHeight with
  | Throw e => (canvas, Throw e)
  | Normal imgData =>
      let canvas := paint (clearRect 0 0 (inject_Z workWidth) workHeight) canvas in
      let canvas := save canvas in
      let shapePath := silhouette options workWidth workHeight in
      (* fill background, '#1e293b' *)
      let canvas := set_fillStyle (RGB.mk 30 41 59) canvas in
      let canvas :=
        paint (fillRect (fillStyle canvas) 0 0 (inject_Z workWidth) workHeight) canvas in
      let cellSize := (inject_Z workWidth / inject_Z (gridSize options))%Q in
      let rows := JS.Math_ceil (workHeight / cellSize) in
      match grid options imgData workWidth workHeight shapePath cellSize rows
                 {| seed := randomSeed options; ctx := canvas |} with
      | (s, Normal _) => (restore (ctx s), Normal tt)
      | (s, Throw e) => (ctx s, Throw e)
      end
  end.

End Engine.

(** ** A host to run the engine on examples *)

Module Host.

(** [Math.sin] by range reduction and its Taylor polynomial of degree 11. *)
Definition two_pi : Q := 710 # 113.

Definition sin (seed : Z) : Q :=
  let x := inject_Z seed in
  let turns := Qfloor (x / two_pi + (1 # 2)) in
  let t := Qred (x - inject_Z turns * two_pi) in
  Qred (t - t ^ 3 / 6 + t ^ 5 / 120 - t ^ 7 / 5040 + t ^ 9 / 362880 - t ^ 11 / 39916800)%Q.

(** Nearest-neighbour resampling of the source rectangle into [w] by [h]
    pixels, four bytes a pixel. *)
Definition resample (image : Image) (sx sy sWidth sHeight : Q) (w h : Z) : list Z :=
  flat_map (fun j =>
    flat_map (fun i =>
      let u := Qfloor (sx + (inject_Z i + (1 # 2)) * sWidth / inject_Z w) in
      let v := Qfloor (sy + (inject_Z j + (1 # 2)) * sHeight / inject_Z h) in
      let at_ := (v * image_width image + u) * 4 in
      map (fun k => match JS.index (image_pixels image) (at_ + k) with
                    | Some byte => byte
                    | None => 0
                    end)
          [0; 1; 2; 3])
      (JS.range w))
    (JS.range h).

(** The outline of a path of curves, each cubic cut at eighths. *)
Definition bezierPoint (p0 p1 p2 p3 t : Q) : Q :=
  let u := (1 - t)%Q in
  (u * u * u * p0 + 3 * u * u * t * p1 + 3 * u * t * t * p2 + t * t * t * p3)%Q.

Fixpoint outline (path : Path2D) (current : Q * Q) : list (Q * Q) :=
  match path with
  | [] => []
  | moveTo x y :: rest => (x, y) :: outline rest (x, y)
  | bezierCurveTo cp1x cp1y cp2x cp2y x y :: rest =>
      map (fun k => (bezierPoint (fst current) cp1x cp2x x (inject_Z k / 8),
                     bezierPoint (snd current) cp1y cp2y y (inject_Z k / 8)))
          [1; 2; 3; 4; 5; 6; 7; 8]
      ++ outline rest (x, y)
  | _ :: rest => outline rest current
  end.

(** Whether the ray from [(px, py)] to the right crosses the edge [a]-[b]. *)
Definition crosses (px py : Q) (a b : Q * Q) : bool :=
  let '(ax, ay) := a in
  let '(bx, by_) := b in
  negb (Bool.eqb (JS.Qltb py ay) (JS.Qltb py by_))
  && JS.Qltb px (ax + (py - ay) * (bx - ax) / (by_ - ay)).

Fixpoint crossings (px py : Q) (first : Q * Q) (points : list (Q * Q)) : nat :=
  match points with
  | [] => 0
  | [a] => if crosses px py a first then 1 else 0
  | a :: (b :: _) as rest =>
      ((if crosses px py a b then 1 else 0) + crossings px py first rest)%nat
  end.

Definition isPointInPath (path : Path2D) (px py : Q) : bool :=
  match path with
  | [rect x y w h] =>
      Qle_bool x px && Qle_bool px (x + w) && Qle_bool y py && Qle_bool py (y + h)
  | [arc x y radius (radians _) (times_PI _)] =>
      Qle_bool ((px - x) * (px - x) + (py - y) * (py - y)) (radius * radius)
  | _ =>
      match outline path (0, 0)%Q with
      | [] => false
      | first :: _ as points => Nat.odd (crossings px py first points)
      end
  end.

Definition browser : Browser :=
  Build_Browser sin true resample isPointInPath.

(** A blank canvas of the default size. *)
Definition blank : Canvas :=
  {| context2d := true; canvas_width := 300; canvas_height := 150;
     fillStyle := RGB.mk 0 0 0; saved := []; drawn := [] |}.

(** An image of one colour. *)
Definition solid (w h : Z) (c : RGB.t) : Image :=
  {| image_width := w; image_height := h;
     image_pixels :=
       flat_map (fun _ => [RGB.r c; RGB.g c; RGB.b c; 255]) (JS.range (w * h)) |}.

Definition options (grid : Z) (shape : ShapeType) (filter : FilterType)
    (palette : list RGB.t) (seed : Z) (desaturated blinking : bool) : ProcessOptions :=
  {| gridSize := grid; shape := shape; filter := filter; palette := palette;
     randomSeed := seed; zoom := 1; offsetX := 0; offsetY := 0;
     isDesaturated := Some desaturated; saturation := None; brightness := None;
     blinkState := Some blinking |}.

Definition plain : ProcessOptions :=
  {| gridSize := 1; shape := rectangle; filter := none; palette := [black; white];
     randomSeed := 0; zoom := 1; offsetX := 0; offsetY := 0;
     isDesaturated := None; saturation := Some 1%Q; brightness := Some 1%Q;
     blinkState := None |}.

End Host.

(** * The application ([src/App.tsx])

    The colour conversions of the palette editor, the built-in palettes,
    the choice of the palette handed to the engine, and the handlers that
    edit the palettes and pan the image.  A handler is the function from the
    state it reads to the state it sets. *)

Module App.

Import Ascii.

(** A character of the class [[a-f\d]] under the flag [i], with the value
    [parseInt(_, 16)] gives it. *)
Definition hexValue (c : ascii) : option Z :=
  let code := Z.of_N (N_of_ascii c) in
  if (48 <=? code) && (code <=? 57) then Some (code - 48)
  else if (97 <=? code) && (code <=? 102) then Some (code - 87)
  else if (65 <=? code) && (code <=? 70) then Some (code - 55)
  else None.

(** [parseInt(s, 16)] of a group [([a-f\d]{2})]. *)
Definition parseInt16 (hi lo : ascii) : option Z :=
  match hexValue hi, hexValue lo with
  | Some h, Some l => Some (16 * h + l)
  | _, _ => None
  end.

(** [/^#?([a-f\d]{2})([a-f\d]{2})([a-f\d]{2})$/i.exec(hex)]: the optional
    number sign is taken when there is one (without it the match would have
    to read it as a digit), and the rest has to be the three groups. *)
Definition stripHash (hex : String.string) : String.string :=
  match hex with
  | String.String "#"%char rest => rest
  | _ => hex
  end.

Definition groups (body : String.string) : option (Z * Z * Z) :=
  match body with
  | String.String r1 (String.String r0
      (String.String g1 (String.String g0
        (String.String b1 (String.String b0 String.EmptyString))))) =>
      match parseInt16 r1 r0, parseInt16 g1 g0, parseInt16 b1 b0 with
      | Some r, Some g, Some b => Some (r, g, b)
      | _, _, _ => None
      end
  | _ => None
  end.

Definition hexToRgb (hex : String.string) : RGB.t :=
  match groups (stripHash hex) with
  | Some (r, g, b) => RGB.mk r g b
  | None => RGB.mk 0 0 0
  end.

(** [n << k] on integers: the product, wrapped to a signed 32-bit integer. *)
Definition int32 (n : Z) : Z := (n + 2 ^ 31) mod 2 ^ 32 - 2 ^ 31.
Definition shl (n k : Z) : Z := int32 (n * 2 ^ k).

Definition hexDigit (d : Z) : ascii :=
  ascii_of_N (Z.to_N (if d <? 10 then 48 + d else 87 + d)).

(** The hexadecimal digits of [n >= 0] in front of [acc], taken from the
    last digit on. *)
Fixpoint digits16 (fuel : nat) (n : Z) (acc : String.string) : String.string :=
  match fuel with
  | O => acc
  | S fuel' =>
      let acc' := String.String (hexDigit (n mod 16)) acc in
      if n / 16 =? 0 then acc' else digits16 fuel' (n / 16) acc'
  end.

(** [n.toString(16)] for an integer [n]. *)
Definition toString16 (n : Z) : String.string :=
  if n <? 0 then
    String.String "-"%char
      (digits16 (S (Z.to_nat (Z.log2 (- n)))) (- n) String.EmptyString)
  else digits16 (S (Z.to_nat (Z.log2 n))) n String.EmptyString.

(** [s.slice(1)] *)
Definition slice1 (s : String.string) : String.string :=
  match s with
  | String.EmptyString => String.EmptyString
  | String.String _ rest => rest
  end.

Definition rgbToHex (r g b : Z) : String.string :=
  String.String "#"%char (slice1 (toString16 (shl 1 24 + shl r 16 + shl g 8 + b))).

Definition RAINBOW_PALETTE : list RGB.t :=
  [ RGB.mk 148 0 211;   (* Violet *)
    RGB.mk 75 0 130;    (* Indigo *)
    RGB.mk 0 0 255;     (* Blue *)
    RGB.mk 0 255 0;     (* Green *)
    RGB.mk 255 255 0;   (* Yellow *)
    RGB.mk 255 127 0;   (* Orange *)
    RGB.mk 255 0 0;     (* Red *)
    RGB.mk 0 0 0;       (* Black *)
    RGB.mk 255 255 255  (* White *) ].

Definition RGB_PALETTE : list RGB.t :=
  [ RGB.mk 255 0 0; RGB.mk 0 255 0; RGB.mk 0 0 255; RGB.mk 0 0 0; RGB.mk 255 255 255 ].

Definition YCM_PALETTE : list RGB.t :=
  [ RGB.mk 255 255 0; RGB.mk 0 255 255; RGB.mk 255 0 255; RGB.mk 0 0 0;
    RGB.mk 255 255 255 ].

Definition REGIA_PALETTE : list RGB.t :=
  [ RGB.mk 210 43 43;   (* Fiery Red *)
    RGB.mk 255 140 0;   (* Vivid Orange *)
    RGB.mk 224 17 95;   (* Ruby/Pink *)
    RGB.mk 204 170 34;  (* Earthy Yellow/Ochre *)
    RGB.mk 0 71 171;    (* Cobalt Blue *)
    RGB.mk 0 128 0;     (* Forest Green *)
    RGB.mk 128 0 128;   (* Purple *)
    RGB.mk 0 0 0;       (* Black *)
    RGB.mk 255 255 255  (* White *) ].

Definition SUNSET_PALETTE : list RGB.t :=
  [ RGB.mk 45 3 59;     (* Shadows: Deep Plum *)
    RGB.mk 140 0 0;     (* Deep Skin: Blood Red *)
    RGB.mk 214 90 49;   (* Mid Skin: Burnt Orange *)
    RGB.mk 255 215 0;   (* Highlight: Gold *)
    RGB.mk 62 84 172;   (* Accent 1: Royal Blue *)
    RGB.mk 245 232 199; (* Accent 2: Soft Cream *)
    RGB.mk 255 46 99    (* Background: Vibrant Pink *) ].

Definition ELECTRIC_PALETTE : list RGB.t :=
  [ RGB.mk 0 0 0;       (* Shadows: True Black *)
    RGB.mk 78 49 170;   (* Deep Skin: Electric Violet *)
    RGB.mk 58 16 120;   (* Mid Skin: Deep Grape *)
    RGB.mk 0 215 255;   (* Highlight: Cyan *)
    RGB.mk 247 208 96;  (* Accent 1: Mustard *)
    RGB.mk 255 0 96;    (* Accent 2: Hot Magenta *)
    RGB.mk 17 106 123   (* Background: Dark Teal *) ].

Definition RETRO_PALETTE : list RGB.t :=
  [ RGB.mk 26 18 11;    (* Shadows: Dark Espresso *)
    RGB.mk 60 42 33;    (* Deep Skin: Coffee *)
    RGB.mk 188 108 37;  (* Mid Skin: Terracotta *)
    RGB.mk 254 250 224; (* Highlight: Off-White *)
    RGB.mk 96 108 56;   (* Accent 1: Olive *)
    RGB.mk 40 54 24;    (* Accent 2: Forest *)
    RGB.mk 221 161 94   (* Background: Sandy Orange *) ].

(** The shapes of the shape selector, two of them not in the engine. *)
Inductive Shape := engine (s : ShapeType) | paper | custom.

Definition engineShape (shape : Shape) : ShapeType :=
  match shape with
  | paper | custom => rectangle
  | engine s => s
  end.

(** The palette the effect hands to [processImage]. *)
Definition activePalette (filter : FilterType) (popArtScheme : Z)
    (noirPalette popPalette : list RGB.t) : list RGB.t :=
  match filter with
  | noir => noirPalette
  | popart =>
      if popArtScheme =? 0 then popPalette
      else if popArtScheme =? 1 then RGB_PALETTE
      else if popArtScheme =? 2 then YCM_PALETTE
      else if popArtScheme =? 3 then REGIA_PALETTE
      else if popArtScheme =? 4 then SUNSET_PALETTE
      else if popArtScheme =? 5 then ELECTRIC_PALETTE
      else if popArtScheme =? 6 then RETRO_PALETTE
      else []
  | rainbow => RAINBOW_PALETTE
  | none => []
  end.

(** The Pop Art button: [setPopArtScheme((popArtScheme + 1) % 7)] when the
    filter is pop-art already, [setFilter('popart')] otherwise. *)
Definition clickPopArt (state : FilterType * Z) : FilterType * Z :=
  let '(filter, popArtScheme) := state in
  match filter with
  | popart => (filter, Z.rem (popArtScheme + 1) 7)
  | _ => (popart, popArtScheme)
  end.

(** [p.r === rgb.r && p.g === rgb.g && p.b === rgb.b] *)
Definition sameColor (rgb p : RGB.t) : bool :=
  (RGB.r p =? RGB.r rgb) && (RGB.g p =? RGB.g rgb) && (RGB.b p =? RGB.b rgb).

(** The handlers of the palette editor, from the palette they read to the
    palette they set (the same palette when they set nothing). *)
Definition addPopColor (popPalette : list RGB.t) (hex : String.string) : list RGB.t :=
  if Z.of_nat (length popPalette) >=? 30 then popPalette
  else
    let rgb := hexToRgb hex in
    if negb (existsb (sameColor rgb) popPalette) then popPalette ++ [rgb]
    else popPalette.

Definition removePopColor (popPalette : list RGB.t) (index : Z) : list RGB.t :=
  if Z.of_nat (length popPalette) <=? 1 then popPalette
  else
    map snd (List.filter (fun entry => negb (fst entry =? index))
                         (combine (JS.range (Z.of_nat (length popPalette))) popPalette)).

(** [arr[index] = v] on a copy of [arr] for an integer [index]: an index
    past the end leaves holes ([None]) before the new entry; a negative one
    names a property and leaves the entries alone. *)
Definition assign {A} (arr : list (option A)) (index : Z) (v : A) : list (option A) :=
  if index <? 0 then arr
  else if index <? Z.of_nat (length arr) then
    firstn (Z.to_nat index) arr ++ Some v :: skipn (S (Z.to_nat index)) arr
  else arr ++ repeat None (Z.to_nat index - length arr) ++ [Some v].

Definition updateNoirColor (noirPalette : list RGB.t) (index : Z) (hex : String.string)
  : list (option RGB.t) :=
  let newNoir := map Some noirPalette in
  assign newNoir index (hexToRgb hex).

(** The pan of the image, and the panning buttons. *)
Record Pan := { x : Q; y : Q }.

Definition panUp (p : Pan) : Pan := {| x := x p; y := Qmax (- 0.5) (y p - 0.1) |}.
Definition panLeft (p : Pan) : Pan := {| x := Qmax (- 0.5) (x p - 0.1); y := y p |}.
Definition panCentre (p : Pan) : Pan := {| x := 0; y := 0 |}.
Definition panRight (p : Pan) : Pan := {| x := Qmin 0.5 (x p + 0.1); y := y p |}.
Definition panDown (p : Pan) : Pan := {| x := x p; y := Qmin 0.5 (y p + 0.1) |}.

(** The state of the component that the engine is called with. *)
Record State := {
  gridSize : Z;
  shape : Shape;
  filter : FilterType;
  brightness : Q;
  saturation : Q;
  blinkState : bool;
  noirPalette : list RGB.t;
  popArtScheme : Z;
  popPalette : list RGB.t;
  randomSeed : Z;
  zoom : Q;
  pan : Pan;
  isDesaturated : bool
}.

(** The initial values of the [useState] calls. *)
Definition initial : State :=
  {| gridSize := 50;
     shape := engine circle;
     filter := none;
     brightness := 1;
     saturation := 1;
     blinkState := false;
     noirPalette := [RGB.mk 0 0 0; RGB.mk 255 255 255];
     popArtScheme := 0;
     popPalette := RAINBOW_PALETTE;
     randomSeed := 0;
     zoom := 1;
     pan := {| x := 0; y := 0 |};
     isDesaturated := false |}.

(** The options the effect calls [processImage] with. *)
Definition engineOptions (st : State) : ProcessOptions :=
  Build_ProcessOptions
    (gridSize st)
    (engineShape (shape st))
    (filter st)
    (activePalette (filter st) (popArtScheme st) (noirPalette st) (popPalette st))
    (randomSeed st)
    (zoom st)
    (x (pan st))
    (y (pan st))
    (Some (isDesaturated st))
    (Some (saturation st))
    (Some (brightness st))
    (Some (blinkState st)).

End App.

(** * Definitions used to state the properties *)

(** What the loop of [getClosestColor] holds after the entries [seen]:
    nothing yet, or the first entry of [seen] at the least distance. *)
Definition first_nearest (r g b : Z) (seen : list RGB.t) (i : nat) (c : RGB.t) : Prop :=
  nth_error seen i = Some c
  /\ (forall j q, nth_error seen j = Some q -> radicand_of r g b c <= radicand_of r g b q)
  /\ (forall j q, (j < i)%nat -> nth_error seen j = Some q ->
        radicand_of r g b c < radicand_of r g b q).

Definition closest_inv (r g b : Z) (seen : list RGB.t) (st : Distance * RGB.t) : Prop :=
  (seen = [] /\ fst st = Infinity)
  \/ (exists i, fst st = Sqrt (radicand_of r g b (snd st))
                /\ first_nearest r g b seen i (snd st)).






Definition total (l : list Z) : Z := fold_right Z.add 0 l.





(** A step of the loop keeps the canvas a canvas with (or without) a
    context. *)
Definition keepsContext {A} (m : M A) : Prop :=
  forall s, context2d (ctx (fst (m s))) = context2d (ctx s).

(** What [isPointInPath] decides on the two silhouettes given in closed
    form: a point is in a rectangle path when it is within its sides, and in
    a full-circle path when it is within the radius; the outline counts as
    inside. *)
Definition standardGeometry (browser : Browser) : Prop :=
  (forall x y w h px py, (0 <= w)%Q -> (0 <= h)%Q ->
     isPointInPath browser [rect x y w h] px py = true
     <-> (x <= px <= x + w /\ y <= py <= y + h)%Q)
  /\ (forall x y radius px py, (0 <= radius)%Q ->
     isPointInPath browser [arc x y radius (radians 0) (times_PI 2)] px py = true
     <-> ((px - x) * (px - x) + (py - y) * (py - y) <= radius * radius)%Q).

(** The silhouettes of the specification: the centred square of side
    [min width height], the centred circle of radius [min width height / 2],
    the region of the heart path. *)
Definition inSilhouette (browser : Browser) (s : ShapeType)
    (workWidth : Z) (workHeight : Q) (p : Q * Q) : Prop :=
  let width := inject_Z workWidth in
  let side := Qmin width workHeight in
  match s with
  | rectangle => True
  | square =>
      ((width - side) / 2 <= fst p <= (width - side) / 2 + side
       /\ (workHeight - side) / 2 <= snd p <= (workHeight - side) / 2 + side)%Q
  | circle =>
      ((fst p - width / 2) * (fst p - width / 2)
       + (snd p - workHeight / 2) * (snd p - workHeight / 2)
       <= (side / 2) * (side / 2))%Q
  | heart =>
      isPointInPath browser (getHeartPath 0 0 width workHeight) (fst p) (snd p) = true
  end.

(** The draw rectangle of a cell: the cell less a tenth of its size on each
    side; its four corners; and the rounded rectangle filled for it. *)
Definition drawRect (cellSize px py : Q) : Q * Q * Q :=
  (px + cellSize * 0.1, py + cellSize * 0.1, cellSize - cellSize * 0.1 * 2)%Q.

Definition corners (cellSize px py : Q) : list (Q * Q) :=
  let '(drawX, drawY, drawSize) := drawRect cellSize px py in
  [ (drawX, drawY); (drawX + drawSize, drawY);
    (drawX, drawY + drawSize); (drawX + drawSize, drawY + drawSize) ]%Q.

Definition cellFill (style : RGB.t) (cellSize px py : Q) : DrawOp :=
  let '(drawX, drawY, drawSize) := drawRect cellSize px py in
  fillRoundRect style drawX drawY drawSize drawSize (drawSize * 0.2).

(** The working resolution of [processImage]: the image's own size, or
    1200 wide and the height scaled by the same ratio. *)
Definition workingSize (image : Image) : Z * Q :=
  let workWidth := image_width image in
  let workHeight := inject_Z (image_height image) in
  if workWidth >? MAX_WIDTH then
    let ratio := (inject_Z MAX_WIDTH / inject_Z workWidth)%Q in
    (MAX_WIDTH, (workHeight * ratio)%Q)
  else (workWidth, workHeight).

(** The source rectangle of [processImage] for zoom and panning:
    [(sx, sy, sWidth, sHeight)]. *)
Definition sourceRect (image : Image) (options : ProcessOptions) : Q * Q * Q * Q :=
  let zoom := if Qeq_bool (zoom options) 0 then 1%Q else zoom options in
  let sWidth := (inject_Z (image_width image) / zoom)%Q in
  let sHeight := (inject_Z (image_height image) / zoom)%Q in
  let sx := ((inject_Z (image_width image) - sWidth) / 2)%Q in
  let sy := ((inject_Z (image_height image) - sHeight) / 2)%Q in
  let sx := (sx + offsetX options * (inject_Z (image_width image) - sWidth))%Q in
  let sy := (sy + offsetY options * (inject_Z (image_height image) - sHeight))%Q in
  let sx := Qmax 0 (Qmin (inject_Z (image_width image) - sWidth) sx) in
  let sy := Qmax 0 (Qmin (inject_Z (image_height image) - sHeight) sy) in
  (sx, sy, sWidth, sHeight).

(** A step of the loop started in a state with [P] ends normally in a state
    and with a value that satisfy [Q], or throws [e] in a state with [E e]. *)
Definition triple {A} (P : Loop -> Prop) (m : M A)
    (Q : A -> Loop -> Prop) (E : Error -> Loop -> Prop) : Prop :=
  forall s, P s ->
    match m s with
    | (s', Normal a) => Q a s'
    | (s', Throw e) => E e s'
    end.

(** The background fill of [processImage], ['#1e293b']. *)
Definition slate : RGB.t := RGB.mk 30 41 59.


Definition inRange (c : RGB.t) : Prop :=
  0 <= RGB.r c <= 255 /\ 0 <= RGB.g c <= 255 /\ 0 <= RGB.b c <= 255.

Definition styleOf (op : DrawOp) : option RGB.t :=
  match op with
  | clearRect _ _ _ _ => None
  | fillRect style _ _ _ _ => Some style
  | fillRoundRect style _ _ _ _ _ => Some style
  end.

(** Channels that are numbers of 0..255, or [NaN]. *)
Definition channelsInRange (rgb : Channels) : Prop :=
  let '(r, g, b) := rgb in
  (forall v, r = Some v -> 0 <= v <= 255)
  /\ (forall v, g = Some v -> 0 <= v <= 255)
  /\ (forall v, b = Some v -> 0 <= v <= 255).

(** The target canvas as [processImage] has it when the cell loop starts:
    sized to the working resolution, cleared, saved, filled with slate. *)
Definition prepared (image : Image) (canvas : Canvas) : Canvas :=
  let '(workWidth, workHeight) := workingSize image in
  let canvas := set_height (Qfloor workHeight) (set_width workWidth canvas) in
  let canvas := save (paint (clearRect 0 0 (inject_Z workWidth) workHeight) canvas) in
  let canvas := set_fillStyle slate canvas in
  paint (fillRect (fillStyle canvas) 0 0 (inject_Z workWidth) workHeight) canvas.

(** The size of a cell and the number of rows of [processImage]. *)
Definition cellSizeOf (image : Image) (options : ProcessOptions) : Q :=
  (inject_Z (fst (workingSize image)) / inject_Z (gridSize options))%Q.

Definition rowsOf (image : Image) (options : ProcessOptions) : Z :=
  JS.Math_ceil (snd (workingSize image) / cellSizeOf image options).

(** The bytes [processImage] samples: the source rectangle resampled to the
    working resolution. *)
Definition sampled (browser : Browser) (image : Image) (options : ProcessOptions)
  : list Z :=
  let '(sx, sy, sWidth, sHeight) := sourceRect image options in
  resample browser image sx sy sWidth sHeight
           (fst (workingSize image)) (Qfloor (snd (workingSize image))).

(** The cell loop of [processImage] on a canvas. *)
Definition gridRun (browser : Browser) (image : Image) (canvas : Canvas)
    (options : ProcessOptions) : Loop * Completion unit :=
  grid browser options (sampled browser image options)
       (fst (workingSize image)) (snd (workingSize image))
       (silhouette options (fst (workingSize image)) (snd (workingSize image)))
       (cellSizeOf image options) (rowsOf image options)
       {| seed := randomSeed options; ctx := prepared image canvas |}.


(** The points a path is made of: where it starts and, for each curve, its
    two control points and its end. *)
Definition pathPoints (path : Path2D) : list (Q * Q) :=
  flat_map (fun step =>
              match step with
              | moveTo x y => [(x, y)]
              | bezierCurveTo cp1x cp1y cp2x cp2y x y => [(cp1x, cp1y); (cp2x, cp2y); (x, y)]
              | _ => []
              end) path.

(** The same point of the plane, and its mirror image in the vertical line
    at [axis]. *)
Definition samePoint (p q : Q * Q) : Prop := (fst p == fst q /\ snd p == snd q)%Q.

Definition mirror (axis : Q) (p : Q * Q) : Q * Q := ((2 * axis - fst p)%Q, snd p).

(** The last [k] hexadecimal digits of [x]. *)
Fixpoint hexPad (k : nat) (x : Z) : String.string :=
  match k with
  | O => String.EmptyString
  | S k' =>
      String.append (hexPad k' (x / 16))
                    (String.String (App.hexDigit (x mod 16)) String.EmptyString)
  end.

(** The end of the channel range nearer to [v]. *)
Definition nearEnd (v : Z) : Z := if v <? 128 then 0 else 255.



(** * Properties *)

(** ** The colour quantizer *)

Lemma radicand_nonneg r g b color : 0 <= radicand_of r g b color.
Proof. unfold radicand_of. nia. Qed.

Lemma euclid_le r g b p q :
  radicand_of r g b p <= radicand_of r g b q -> (euclid r g b p <= euclid r g b q)%R.
Proof. intros H. unfold euclid. apply sqrt_le_1_alt. now apply IZR_le. Qed.

Lemma euclid_lt r g b p q :
  radicand_of r g b p < radicand_of r g b q -> (euclid r g b p < euclid r g b q)%R.
Proof.
  intros H. unfold euclid. apply sqrt_lt_1_alt. split.
  - apply IZR_le, radicand_nonneg.
  - now apply IZR_lt.
Qed.

Lemma closer_inv r g b seen st color :
  closest_inv r g b seen st ->
  closest_inv r g b (seen ++ [color]) (closer r g b st color).
Proof.
  destruct st as [m c]. unfold closer.
  intros [[-> Hm] | [i [Hm [Hi [Hmin Hfirst]]]]]; cbn [fst snd] in *; subst m; cbn [dist_ltb].
  - right. exists 0%nat. cbn [fst snd]. split; [reflexivity|]. repeat split.
    + intros [|[|j]] q Hq; cbn in Hq; try discriminate. injection Hq as <-. lia.
    + intros j q Hj. lia.
  - destruct (Z.ltb_spec (radicand_of r g b color) (radicand_of r g b c)) as [Hlt | Hge].
    + right. exists (length seen). cbn [fst snd]. split; [reflexivity|]. repeat split.
      * rewrite nth_error_app2, Nat.sub_diag by lia. reflexivity.
      * intros j q Hq. destruct (Nat.lt_ge_cases j (length seen)) as [Hj | Hj].
        -- rewrite nth_error_app1 in Hq by assumption. specialize (Hmin j q Hq). lia.
        -- rewrite nth_error_app2 in Hq by assumption.
           destruct (j - length seen)%nat as [|[|k]]; cbn in Hq; try discriminate.
           injection Hq as <-. lia.
      * intros j q Hj Hq. rewrite nth_error_app1 in Hq by assumption.
        specialize (Hmin j q Hq). lia.
    + right. exists i. cbn [fst snd]. split; [reflexivity|].
      assert (Hlen : (i < length seen)%nat).
      { apply nth_error_Some. congruence. }
      repeat split.
      * rewrite nth_error_app1 by assumption. exact Hi.
      * intros j q Hq. destruct (Nat.lt_ge_cases j (length seen)) as [Hj | Hj].
        -- rewrite nth_error_app1 in Hq by assumption. eauto.
        -- rewrite nth_error_app2 in Hq by assumption.
           destruct (j - length seen)%nat as [|[|k]]; cbn in Hq; try discriminate.
           injection Hq as <-. lia.
      * intros j q Hj Hq. rewrite nth_error_app1 in Hq by lia. eauto.
Qed.

Lemma fold_closer_inv r g b rest : forall seen st,
  closest_inv r g b seen st ->
  closest_inv r g b (seen ++ rest) (fold_left (closer r g b) rest st).
Proof.
  induction rest as [|color rest IH]; intros seen st Hinv; cbn [fold_left].
  - now rewrite app_nil_r.
  - replace (seen ++ color :: rest) with ((seen ++ [color]) ++ rest)
      by (rewrite <- app_assoc; reflexivity).
    apply IH, closer_inv, Hinv.
Qed.

(** C1.  [getClosestColor] returns the input colour on an empty palette;
    on any other palette it returns the entry at some position [i] whose
    Euclidean distance to the input is least among all entries, and every
    entry before position [i] is strictly farther: the first entry at the
    least distance, in iteration order. *)
Theorem getClosestColor_first_nearest (r g b : Z) (palette : list RGB.t) :
  getClosestColor r g b [] = RGB.mk r g b
  /\ (palette <> [] ->
      exists i,
        nth_error palette i = Some (getClosestColor r g b palette)
        /\ In (getClosestColor r g b palette) palette
        /\ (forall q, In q palette ->
              (euclid r g b (getClosestColor r g b palette) <= euclid r g b q)%R)
        /\ (forall j q, (j < i)%nat -> nth_error palette j = Some q ->
              (euclid r g b (getClosestColor r g b palette) < euclid r g b q)%R)).
Proof.
  split; [reflexivity|]. intros Hne.
  destruct palette as [|first rest]; [congruence|].
  unfold getClosestColor.
  destruct (fold_closer_inv r g b (first :: rest) [] (Infinity, first)) as [[Hnil _] | [i [_ H]]].
  - left. split; reflexivity.
  - discriminate Hnil.
  - cbn [app] in H. destruct H as [Hi [Hmin Hfirst]].
    exists i. split; [exact Hi|]. split; [eapply nth_error_In; exact Hi|]. split.
    + intros q Hq. apply In_nth_error in Hq as [j Hj]. apply euclid_le. eauto.
    + intros j q Hj Hq. apply euclid_lt. eauto.
Qed.

Lemma getClosestColor_first_nearest_witness :
  [RGB.mk 0 0 0; RGB.mk 255 255 255] <> []
  /\ exists i,
        nth_error [RGB.mk 0 0 0; RGB.mk 255 255 255] i
          = Some (getClosestColor 26 26 26 [RGB.mk 0 0 0; RGB.mk 255 255 255])
        /\ In (getClosestColor 26 26 26 [RGB.mk 0 0 0; RGB.mk 255 255 255])
              [RGB.mk 0 0 0; RGB.mk 255 255 255]
        /\ (forall q, In q [RGB.mk 0 0 0; RGB.mk 255 255 255] ->
              (euclid 26 26 26 (getClosestColor 26 26 26 [RGB.mk 0 0 0; RGB.mk 255 255 255])
               <= euclid 26 26 26 q)%R)
        /\ (forall j q, (j < i)%nat ->
              nth_error [RGB.mk 0 0 0; RGB.mk 255 255 255] j = Some q ->
              (euclid 26 26 26 (getClosestColor 26 26 26 [RGB.mk 0 0 0; RGB.mk 255 255 255])
               < euclid 26 26 26 q)%R).
Proof.
  assert (Hne : [RGB.mk 0 0 0; RGB.mk 255 255 255] <> []) by discriminate.
  split; [exact Hne|].
  exact (proj2 (getClosestColor_first_nearest 26 26 26 [RGB.mk 0 0 0; RGB.mk 255 255 255]) Hne).
Defined.

Lemma getClosestColor_In r g b palette :
  palette <> [] -> In (getClosestColor r g b palette) palette.
Proof.
  destruct palette as [|first rest]; [congruence|]. intros _.
  unfold getClosestColor.
  destruct (fold_closer_inv r g b (first :: rest) [] (Infinity, first))
    as [[Hnil _] | [i [_ [Hi _]]]].
  - left. split; reflexivity.
  - discriminate Hnil.
  - eapply nth_error_In. exact Hi.
Qed.

Lemma closestChannels_In rgb palette :
  palette <> [] -> exists c, In c palette /\ closestChannels rgb palette = channels c.
Proof.
  intros Hne. destruct rgb as [[[r|] [g|]] [b|]]; cbn [closestChannels];
    try (destruct palette as [|first rest]; [congruence|];
         exists first; split; [now left | reflexivity]).
  exists (getClosestColor r g b palette). split; [now apply getClosestColor_In | reflexivity].
Qed.

(** ** The monad of the cell loop *)

Lemma bind_Normal {A B} (m : M A) (k : A -> M B) s s' b :
  bind m k s = (s', Normal b) ->
  exists s1 a, m s = (s1, Normal a) /\ k a s1 = (s', Normal b).
Proof.
  unfold bind. destruct (m s) as [s1 [a|e]]; intros H.
  - exists s1, a. split; [reflexivity | exact H].
  - discriminate H.
Qed.


(** ** No drawing context *)

(** C9.  When the target canvas gives no 2D context, [processImage] returns
    normally and leaves the canvas exactly as it was: same size, same
    context state, nothing painted. *)
Theorem processImage_without_context (browser : Browser) (image : Image)
    (canvas : Canvas) (options : ProcessOptions) :
  context2d canvas = false ->
  processImage browser image canvas options = (canvas, Normal tt).
Proof. intros H. unfold processImage. rewrite H. reflexivity. Qed.

Lemma processImage_without_context_witness :
  context2d (set_width 640 (Build_Canvas false 300 150 white [] [])) = false
  /\ processImage Host.browser (Host.solid 4 4 white)
       (set_width 640 (Build_Canvas false 300 150 white [] [])) Host.plain
     = (set_width 640 (Build_Canvas false 300 150 white [] []), Normal tt).
Proof.
  split; [reflexivity|].
  apply (processImage_without_context Host.browser (Host.solid 4 4 white)
           (set_width 640 (Build_Canvas false 300 150 white [] [])) Host.plain).
  reflexivity.
Defined.

(** ** Desaturation *)

(** C7.  With the desaturation toggle set, the desaturation pass maps every
    colour it is given to one of the seven entries of [DESATURATE_PALETTE]
    (red, yellow, green, blue, magenta, black, white), and so does the colour
    of every cell after that pass, whatever the style filter. *)
Theorem desaturation_in_fixed_palette (browser : Browser) (options : ProcessOptions) :
  isDesaturated options = Some true ->
  DESATURATE_PALETTE
    = [RGB.mk 255 0 0; RGB.mk 255 255 0; RGB.mk 0 255 0; RGB.mk 0 0 255;
       RGB.mk 255 0 255; RGB.mk 0 0 0; RGB.mk 255 255 255]
  /\ (forall rgb, exists c, In c DESATURATE_PALETTE /\ desaturate options rgb = channels c)
  /\ (forall imgData workWidth workHeight cellSize y x s s' rgb,
        cellColor browser options imgData workWidth workHeight cellSize y x s
          = (s', Normal rgb) ->
        exists c, In c DESATURATE_PALETTE /\ rgb = channels c).
Proof.
  intros Hon.
  assert (Hpass : forall rgb,
             exists c, In c DESATURATE_PALETTE /\ desaturate options rgb = channels c).
  { intros rgb. unfold desaturate. rewrite Hon.
    apply closestChannels_In. discriminate. }
  split; [reflexivity|]. split; [exact Hpass|].
  intros imgData workWidth workHeight cellSize y x s s' rgb H.
  unfold cellColor in H.
  apply bind_Normal in H as (s1 & target & _ & H).
  apply bind_Normal in H as (s2 & filtered & _ & H).
  unfold ret in H. injection H as _ <-.
  destruct (Hpass filtered) as (c & Hin & Heq). exists c. now split.
Qed.

Lemma desaturation_in_fixed_palette_witness :
  isDesaturated (Host.options 2 circle popart [black; white] 7 true false) = Some true
  /\ exists c,
       In c DESATURATE_PALETTE
       /\ desaturate (Host.options 2 circle popart [black; white] 7 true false)
            (Some 200, Some 30, Some 40) = channels c.
Proof.
  split; [reflexivity|].
  exact (proj1 (proj2 (desaturation_in_fixed_palette Host.browser
                         (Host.options 2 circle popart [black; white] 7 true false)
                         eq_refl))
               (Some 200, Some 30, Some 40)).
Defined.

(** ** Luma and the noir filter *)

Lemma Math_round_Z (n d : Z) (q : Q) :
  0 < d -> (q == inject_Z n / inject_Z d)%Q ->
  JS.Math_round q = (2 * n + d) / (2 * d).
Proof.
  intros Hd Hq. unfold JS.Math_round. rewrite Zdiv_Qdiv.
  apply Qfloor_comp. rewrite Hq, !inject_Z_plus, !inject_Z_mult.
  assert (~ inject_Z d == 0)%Q.
  { intros H0. apply (Qeq_alt (inject_Z d) 0) in H0.
    unfold Qcompare, inject_Z in H0. cbn in H0. rewrite Z.mul_1_r in H0.
    apply Z.compare_eq in H0. lia. }
  field. assumption.
Qed.

Lemma luma_Z (r g b : Z) : luma r g b = (299 * r + 587 * g + 114 * b + 500) / 1000.
Proof.
  unfold luma.
  rewrite (Math_round_Z (299 * r + 587 * g + 114 * b) 1000) by
    (try lia; rewrite !inject_Z_plus, !inject_Z_mult; field).
  replace (2 * (299 * r + 587 * g + 114 * b) + 1000)
    with ((299 * r + 587 * g + 114 * b + 500) * 2) by ring.
  replace (2 * 1000) with (1000 * 2) by ring.
  apply Z.div_mul_cancel_r; lia.
Qed.

Lemma luma_range (r g b : Z) :
  0 <= r <= 255 -> 0 <= g <= 255 -> 0 <= b <= 255 -> 0 <= luma r g b <= 255.
Proof.
  intros Hr Hg Hb. rewrite luma_Z. split.
  - apply Z.div_pos; lia.
  - apply Z.lt_succ_r, Z.div_lt_upper_bound; lia.
Qed.



(** ** The rainbow and pop-art filters: palette indexing *)


Lemma index_Some {A} (arr : list A) (i : Z) :
  0 <= i < Z.of_nat (length arr) -> exists a, JS.index arr i = Some a.
Proof.
  intros Hi. unfold JS.index. destruct (Z.ltb_spec i 0); [lia|].
  destruct (nth_error arr (Z.to_nat i)) as [a|] eqn:E; [now exists a|].
  apply nth_error_None in E. lia.
Qed.

Lemma gradientIndex_Z (bVal : Z) (palette : list RGB.t) :
  gradientIndex bVal palette
  = Z.min (bVal * Z.of_nat (length palette) / 256) (Z.of_nat (length palette) - 1).
Proof.
  unfold gradientIndex, JS.Math_floor. f_equal.
  rewrite Zdiv_Qdiv. apply Qfloor_comp.
  rewrite inject_Z_mult. field.
Qed.

Lemma gradientIndex_range (bVal : Z) (palette : list RGB.t) :
  0 <= bVal <= 255 -> palette <> [] ->
  0 <= gradientIndex bVal palette <= Z.of_nat (length palette) - 1.
Proof.
  intros Hb Hne. rewrite gradientIndex_Z.
  assert (1 <= Z.of_nat (length palette)).
  { destruct palette; [congruence | cbn [length]; lia]. }
  assert (0 <= bVal * Z.of_nat (length palette) / 256) by (apply Z.div_pos; nia).
  lia.
Qed.



(** ** The colour transform *)

Lemma Qfloor_between (q : Q) (z : Z) :
  (inject_Z z <= q)%Q -> (q < inject_Z (z + 1))%Q -> Qfloor q = z.
Proof.
  intros Hlo Hhi. apply Z.le_antisymm.
  - apply Z.lt_succ_r. rewrite Zlt_Qlt. unfold Z.succ.
    eapply Qle_lt_trans; [apply Qfloor_le | exact Hhi].
  - rewrite <- (Qfloor_Z z) at 1. now apply Qfloor_resp_le.
Qed.

(** A transformed channel is an integer of 0..255. *)
Lemma clamp255_range (t : Q) : 0 <= clamp255 t <= 255.
Proof. unfold clamp255. lia. Qed.

(** Rounding and clamping absorb any error below one half. *)
Lemma clamp255_near (t : Q) (z : Z) :
  0 <= z <= 255 -> (Qabs (t - inject_Z z) < 1 # 2)%Q -> clamp255 t = z.
Proof.
  intros Hz Hnear. unfold clamp255, JS.Math_round.
  apply Qabs_Qlt_condition in Hnear as [Hlo Hhi].
  rewrite (Qfloor_between (t + (1 # 2)) z).
  - lia.
  - apply Qlt_le_weak. lra.
  - rewrite inject_Z_plus. change (inject_Z 1) with 1%Q. lra.
Qed.

Lemma clamp255_exact (t : Q) (z : Z) :
  0 <= z <= 255 -> (t == inject_Z z)%Q -> clamp255 t = z.
Proof.
  intros Hz Ht. apply clamp255_near; [exact Hz|].
  rewrite Ht. setoid_replace (inject_Z z - inject_Z z)%Q with 0%Q by ring.
  reflexivity.
Qed.

(** C5.  With brightness 1, saturation 1 (given or left to their default)
    and seed 0, the colour transform (jitter, brightness, saturation, round
    and clamp) returns every colour with integer channels in 0..255 as it
    is, and leaves the seed where it was. *)
Theorem transform_identity (browser : Browser) (options : ProcessOptions)
    (r g b : Z) (s : Loop) :
  0 <= r <= 255 -> 0 <= g <= 255 -> 0 <= b <= 255 ->
  randomSeed options = 0 ->
  (forall v, brightness options = Some v -> (v == 1)%Q) ->
  (forall v, saturation options = Some v -> (v == 1)%Q) ->
  transform browser options (Some r, Some g, Some b) s
  = (s, Normal (Some r, Some g, Some b)).
Proof.
  intros Hr Hg Hb Hseed Hbright Hsat.
  unfold transform, jitter. rewrite Hseed. cbn [Z.gtb Z.compare option_map].
  unfold bind, ret, adjust.
  assert (Hbv : ((match brightness options with Some v => v | None => 1 end) == 1)%Q).
  { destruct (brightness options) as [v|]; [now apply Hbright | reflexivity]. }
  assert (Hsv : ((match saturation options with Some v => v | None => 1 end) == 1)%Q).
  { destruct (saturation options) as [v|]; [now apply Hsat | reflexivity]. }
  set (bv := match brightness options with Some v => v | None => 1%Q end) in *.
  set (sv := match saturation options with Some v => v | None => 1%Q end) in *.
  cbn [option_map nan_map3 nan_map2].
  rewrite (clamp255_exact _ r), (clamp255_exact _ g), (clamp255_exact _ b);
    try assumption; try reflexivity; rewrite Hbv, Hsv; ring.
Qed.

Lemma transform_identity_witness :
  0 <= 200 <= 255 /\ 0 <= 30 <= 255 /\ 0 <= 255 <= 255
  /\ randomSeed Host.plain = 0
  /\ transform Host.browser Host.plain (Some 200, Some 30, Some 255)
       {| seed := 0; ctx := Host.blank |}
     = ({| seed := 0; ctx := Host.blank |}, Normal (Some 200, Some 30, Some 255)).
Proof.
  repeat (split; [lia || reflexivity|]).
  apply (transform_identity Host.browser Host.plain 200 30 255
           {| seed := 0; ctx := Host.blank |}); try lia; try reflexivity.
  - intros v Hv. injection Hv as <-. reflexivity.
  - intros v Hv. injection Hv as <-. reflexivity.
Defined.

(** ** The cell sampler *)




Lemma Qltb_lt (x y : Q) : JS.Qltb x y = true <-> (x < y)%Q.
Proof.
  unfold JS.Qltb. rewrite negb_true_iff, <- not_true_iff_false, Qle_bool_iff.
  split; [apply Qnot_le_lt | apply Qlt_not_le].
Qed.







Section Sampling.

Variables (imgData : list Z) (workWidth : Z) (workHeight : Q) (px py : Q).





End Sampling.





Lemma total_nil : total [] = 0.
Proof. reflexivity. Qed.




(** ** Jitter *)







Section Jitter.

Variable browser : Browser.
Variable options : ProcessOptions.





End Jitter.





(** ** Determinism *)

(** Sizing a canvas leaves nothing of what it was but its context. *)
Lemma resize_reset (w h : Z) (c1 c2 : Canvas) :
  context2d c1 = context2d c2 ->
  set_height h (set_width w c1) = set_height h (set_width w c2).
Proof. intros H. unfold set_height, set_width. cbn [context2d canvas_width]. now rewrite H. Qed.

Lemma keepsContext_bind {A B} (m : M A) (k : A -> M B) :
  keepsContext m -> (forall a, keepsContext (k a)) -> keepsContext (bind m k).
Proof.
  intros Hm Hk s. unfold bind. specialize (Hm s).
  destruct (m s) as [s1 [a|e]]; cbn [fst] in *.
  - rewrite Hk. exact Hm.
  - exact Hm.
Qed.

Lemma keepsContext_ret {A} (a : A) : keepsContext (ret a).
Proof. intros s. reflexivity. Qed.

Lemma keepsContext_lift {A} (c : Completion A) : keepsContext (lift c).
Proof. intros s. reflexivity. Qed.

Lemma keepsContext_nextSeed : keepsContext nextSeed.
Proof. intros s. reflexivity. Qed.

Lemma keepsContext_onCtx (f : Canvas -> Canvas) :
  (forall c, context2d (f c) = context2d c) -> keepsContext (onCtx f).
Proof. intros Hf s. cbn. apply Hf. Qed.

Lemma keepsContext_forEach {A} (l : list A) (body : A -> M unit) :
  (forall a, keepsContext (body a)) -> keepsContext (forEach l body).
Proof.
  intros Hbody. induction l as [|a l IH]; cbn [forEach].
  - apply keepsContext_ret.
  - apply keepsContext_bind; [apply Hbody | intros _; exact IH].
Qed.

Lemma keepsContext_cell browser options imgData workWidth workHeight shapePath cellSize y x :
  keepsContext (cell browser options imgData workWidth workHeight shapePath cellSize y x).
Proof.
  unfold cell, cellColor, transform, jitter, jitterChannel.
  destruct (average _) as [[r g] b].
  repeat first
    [ apply keepsContext_bind; [|intros ?]
    | apply keepsContext_ret
    | apply keepsContext_lift
    | apply keepsContext_nextSeed
    | apply keepsContext_onCtx
    | match goal with |- keepsContext (if ?c then _ else _) => destruct c end ].
  - intros c. unfold assignFillStyle.
    destruct (blink options x y a) as [[[?|] [?|]] [?|]]; reflexivity.
  - intros c. unfold drawCell. destruct (isInside _ _ _ _ _); [|reflexivity].
    destruct (shape options); reflexivity.
Qed.

Lemma processImage_keeps_context browser image canvas options :
  context2d (fst (processImage browser image canvas options)) = context2d canvas.
Proof.
  unfold processImage. destruct (context2d canvas) eqn:Hctx; cbn [negb]; [|exact Hctx].
  destruct (image_width image >? MAX_WIDTH);
    (destruct (offscreenContext2d browser); cbn [negb]; [|exact Hctx]);
    (destruct (getImageData _ _ _ _ _ _ _ _) as [imgData|e]; [|exact Hctx]).
  all: match goal with
       | |- context [grid ?b ?o ?i ?w ?h ?p ?c ?r ?s] =>
           pose proof (keepsContext_forEach (JS.range r)
                         (fun y => forEach (JS.range (gridSize o))
                                     (fun x => cell b o i w h p c y x))
                         (fun y => keepsContext_forEach _ _
                                     (fun x => keepsContext_cell b o i w h p c y x)) s) as Hk;
           fold (grid b o i w h p c r) in Hk;
           destruct (grid b o i w h p c r s) as [s' [[]|e]]
       end; cbn [fst ctx] in *.
  all: try (unfold restore; destruct (saved (ctx s')); cbn [context2d]); rewrite Hk; exact Hctx.
Qed.

(** C2.  [processImage] is a function of the image and the options alone:
    on any two canvases that give a context it ends the same way and leaves
    the same canvas (same size, same context state, same things painted in
    the same order), whatever they held before and whatever the seed; in
    particular running it again on the canvas it has just painted repaints
    exactly the same. *)
Theorem processImage_deterministic (browser : Browser) (image : Image)
    (options : ProcessOptions) (canvas1 canvas2 : Canvas) :
  context2d canvas1 = true -> context2d canvas2 = true ->
  processImage browser image canvas1 options = processImage browser image canvas2 options
  /\ processImage browser image (fst (processImage browser image canvas1 options)) options
     = processImage browser image canvas1 options.
Proof.
  assert (Hany : forall c1 c2, context2d c1 = true -> context2d c2 = true ->
                   processImage browser image c1 options
                   = processImage browser image c2 options).
  { intros c1 c2 H1 H2. unfold processImage. rewrite H1, H2. cbn [negb].
    destruct (image_width image >? MAX_WIDTH);
      rewrite (resize_reset _ _ c1 c2) by congruence; reflexivity. }
  intros H1 H2. split; [now apply Hany|].
  apply Hany; [|exact H1]. rewrite processImage_keeps_context. exact H1.
Qed.

Lemma processImage_deterministic_witness :
  context2d Host.blank = true
  /\ context2d (paint (clearRect 0 0 9 9) (set_fillStyle white (set_width 640 Host.blank)))
     = true
  /\ processImage Host.browser (Host.solid 2 2 (RGB.mk 200 100 50)) Host.blank
       (Host.options 2 circle rainbow [black; white] 5 true true)
     = processImage Host.browser (Host.solid 2 2 (RGB.mk 200 100 50))
         (paint (clearRect 0 0 9 9) (set_fillStyle white (set_width 640 Host.blank)))
         (Host.options 2 circle rainbow [black; white] 5 true true).
Proof.
  split; [reflexivity|]. split; [reflexivity|].
  exact (proj1 (processImage_deterministic Host.browser
                  (Host.solid 2 2 (RGB.mk 200 100 50))
                  (Host.options 2 circle rainbow [black; white] 5 true true)
                  Host.blank
                  (paint (clearRect 0 0 9 9) (set_fillStyle white (set_width 640 Host.blank)))
                  eq_refl eq_refl)).
Defined.

(** ** The silhouette test *)

Lemma host_standardGeometry : standardGeometry Host.browser.
Proof.
  split.
  - intros x y w h px py _ _. cbn [isPointInPath Host.browser Host.isPointInPath].
    rewrite !andb_true_iff, !Qle_bool_iff. tauto.
  - intros x y radius px py _. cbn [isPointInPath Host.browser Host.isPointInPath].
    apply Qle_bool_iff.
Qed.

Lemma paint_changes (op : DrawOp) (c : Canvas) : paint op c <> c.
Proof.
  intros H. apply (f_equal (fun c => length (drawn c))) in H.
  cbn [paint drawn] in H. rewrite length_app in H. cbn [length] in H. lia.
Qed.

Lemma all_four (c1 c2 c3 c4 : bool) :
  (if negb c1 || negb c2 || negb c3 || negb c4 then false else true) = true
  <-> c1 = true /\ c2 = true /\ c3 = true /\ c4 = true.
Proof. destruct c1, c2, c3, c4; cbn; intuition congruence. Qed.

Lemma Forall_corners (P : Q * Q -> Prop) (cellSize px py : Q) :
  Forall P (corners cellSize px py)
  <-> P (px + cellSize * 0.1, py + cellSize * 0.1)%Q
      /\ P (px + cellSize * 0.1 + (cellSize - cellSize * 0.1 * 2), py + cellSize * 0.1)%Q
      /\ P (px + cellSize * 0.1, py + cellSize * 0.1 + (cellSize - cellSize * 0.1 * 2))%Q
      /\ P (px + cellSize * 0.1 + (cellSize - cellSize * 0.1 * 2),
            py + cellSize * 0.1 + (cellSize - cellSize * 0.1 * 2))%Q.
Proof.
  unfold corners, drawRect. split.
  - intros H. inversion H as [|? ? H1 H']; subst. inversion H' as [|? ? H2 H'']; subst.
    inversion H'' as [|? ? H3 H''']; subst. inversion H''' as [|? ? H4 _]; subst. tauto.
  - intros (H1 & H2 & H3 & H4). repeat constructor; assumption.
Qed.

(** The acceptance test of the loop is the test of the four corners against
    the silhouette. *)
Lemma isInside_corners (browser : Browser) (options : ProcessOptions)
    (workWidth : Z) (workHeight cellSize px py : Q) :
  standardGeometry browser -> 0 <= workWidth -> (0 <= workHeight)%Q ->
  isInside browser (silhouette options workWidth workHeight)
           (px + cellSize * 0.1) (py + cellSize * 0.1) (cellSize - cellSize * 0.1 * 2) = true
  <-> Forall (inSilhouette browser (shape options) workWidth workHeight)
             (corners cellSize px py).
Proof.
  intros [Hrect Harc] Hw Hh. rewrite Forall_corners.
  assert (Hw' : (0 <= inject_Z workWidth)%Q)
    by (change 0%Q with (inject_Z 0); rewrite <- Zle_Qle; exact Hw).
  assert (Hside : (0 <= Qmin (inject_Z workWidth) workHeight)%Q)
    by (apply Q.min_glb; assumption).
  unfold silhouette, inSilhouette, isInside. destruct (shape options); cbn [fst snd].
  - rewrite all_four, !Hrect by assumption. tauto.
  - tauto.
  - assert (Hr : (0 <= Qmin (inject_Z workWidth) workHeight / 2)%Q)
      by (apply Qle_shift_div_l; [reflexivity | lra]).
    rewrite all_four, !Harc by assumption. tauto.
  - rewrite all_four. tauto.
Qed.

(** C8.  On a host with the standard geometry: with the shape rectangle
    every cell is drawn; with every shape (rectangle included, its
    silhouette being everything) a cell is drawn, as one rounded rectangle
    over its draw rectangle, exactly when the four corners of that
    rectangle, the cell less 10% on each side, all lie in the silhouette
    (centred square, centred circle, heart path), and nothing is painted for
    it exactly when some corner does not. *)
Theorem cell_drawn_iff_corners_inside (browser : Browser) (options : ProcessOptions)
    (workWidth : Z) (workHeight cellSize px py : Q) (canvas : Canvas) :
  standardGeometry browser -> 0 <= workWidth -> (0 <= workHeight)%Q ->
  let accepted :=
    Forall (inSilhouette browser (shape options) workWidth workHeight)
           (corners cellSize px py) in
  let after :=
    drawCell browser options (silhouette options workWidth workHeight) cellSize px py canvas in
  (shape options = rectangle ->
   after = paint (cellFill (fillStyle canvas) cellSize px py) canvas)
  /\ (accepted <-> after = paint (cellFill (fillStyle canvas) cellSize px py) canvas)
  /\ (~ accepted <-> after = canvas).
Proof.
  intros Hgeo Hw Hh accepted after.
  pose proof (isInside_corners browser options workWidth workHeight cellSize px py Hgeo Hw Hh)
    as Hiff. fold accepted in Hiff.
  assert (Hafter : after
                   = if isInside browser (silhouette options workWidth workHeight)
                                 (px + cellSize * 0.1) (py + cellSize * 0.1)
                                 (cellSize - cellSize * 0.1 * 2)
                     then paint (cellFill (fillStyle canvas) cellSize px py) canvas
                     else canvas).
  { unfold after, drawCell, cellFill, drawRect.
    destruct (isInside _ _ _ _ _); [|reflexivity]. destruct (shape options); reflexivity. }
  rewrite Hafter.
  destruct (isInside browser (silhouette options workWidth workHeight) _ _ _) eqn:E.
  - assert (Hacc : accepted) by (apply Hiff; reflexivity).
    split; [reflexivity|]. split.
    + tauto.
    + split; [tauto|]. intros H. exfalso. exact (paint_changes _ _ H).
  - assert (Hrej : ~ accepted) by (rewrite <- Hiff; discriminate).
    split; [|split].
    + intros Hshape. exfalso. apply Hrej. unfold accepted. rewrite Hshape.
      apply Forall_corners. cbn [inSilhouette]. tauto.
    + split; [tauto|]. intros H. exfalso. symmetry in H. exact (paint_changes _ _ H).
    + tauto.
Qed.

Lemma cell_drawn_iff_corners_inside_witness :
  standardGeometry Host.browser /\ 0 <= 100 /\ (0 <= 100)%Q
  /\ drawCell Host.browser (Host.options 10 circle none [] 0 false false)
       (silhouette (Host.options 10 circle none [] 0 false false) 100 100)
       10 50 50 Host.blank
     = paint (cellFill (fillStyle Host.blank) 10 50 50) Host.blank.
Proof.
  assert (Hw : 0 <= 100) by lia.
  assert (Hh : (0 <= 100)%Q) by (vm_compute; discriminate).
  split; [exact host_standardGeometry|]. split; [exact Hw|]. split; [exact Hh|].
  apply (proj1 (proj1 (proj2 (cell_drawn_iff_corners_inside Host.browser
                  (Host.options 10 circle none [] 0 false false)
                  100 100 10 50 50 Host.blank host_standardGeometry Hw Hh)))).
  apply Forall_corners. cbn [inSilhouette shape Host.options fst snd].
  repeat split; vm_compute; discriminate.
Defined.

(** ** The engine at work *)

(** A red image as one cell comes out red without a filter and black under
    noir; the corner cell of a circle is left out, the middle one drawn. *)
Example red_cell_unfiltered :
  drawn (fst (processImage Host.browser (Host.solid 8 8 (RGB.mk 255 0 0)) Host.blank
                Host.plain))
  = [ clearRect 0 0 8 8;
      fillRect (RGB.mk 30 41 59) 0 0 8 8;
      cellFill (RGB.mk 255 0 0) (8 / 1) (0 * (8 / 1)) (0 * (8 / 1)) ].
Proof. vm_compute. reflexivity. Qed.

Example red_cell_noir :
  drawn (fst (processImage Host.browser (Host.solid 8 8 (RGB.mk 255 0 0)) Host.blank
                (Host.options 1 rectangle noir [black; white] 0 false false)))
  = [ clearRect 0 0 8 8;
      fillRect (RGB.mk 30 41 59) 0 0 8 8;
      cellFill black (8 / 1) (0 * (8 / 1)) (0 * (8 / 1)) ].
Proof. vm_compute. reflexivity. Qed.

Example circle_corner_left_out :
  isInside Host.browser
    (silhouette (Host.options 10 circle none [] 0 false false) 100 100) 1 1 8 = false
  /\ isInside Host.browser
       (silhouette (Host.options 10 circle none [] 0 false false) 100 100) 51 51 8 = true.
Proof. split; vm_compute; reflexivity. Qed.

(** On a surface of fractional height the bounds test lets a row through
    that the buffer does not have: here height 3/2 over a buffer of one row
    of two pixels, and the cell of the second row sums [undefined]. *)
Example sample_past_the_buffer :
  average (sampleCell [10; 20; 30; 255; 40; 50; 60; 255] 2 (3 # 2) 1 0 1)
  = (None, None, None).
Proof. vm_compute. reflexivity. Qed.

Example empty_palette_popart_throws :
  snd (processImage Host.browser (Host.solid 8 8 (RGB.mk 255 0 0)) Host.blank
         (Host.options 1 rectangle popart [] 0 false false))
  = Throw TypeError.
Proof. vm_compute. reflexivity. Qed.

(** * Further properties of the engine *)

(** ** Reasoning about the loop *)

Lemma triple_ret {A} (P : Loop -> Prop) (a : A) (Q : A -> Loop -> Prop) E :
  (forall s, P s -> Q a s) -> triple P (ret a) Q E.
Proof. intros H s Hs. cbn. now apply H. Qed.

Lemma triple_bind {A B} (P : Loop -> Prop) (m : M A) (k : A -> M B)
    (R : A -> Loop -> Prop) (Q : B -> Loop -> Prop) E :
  triple P m R E -> (forall a, triple (R a) (k a) Q E) -> triple P (bind m k) Q E.
Proof.
  intros Hm Hk s Hs. unfold bind. specialize (Hm s Hs).
  destruct (m s) as [s1 [a|e]]; [|exact Hm]. now apply Hk.
Qed.

Lemma triple_weaken {A} (P P' : Loop -> Prop) (m : M A)
    (Q Q' : A -> Loop -> Prop) (E E' : Error -> Loop -> Prop) :
  triple P' m Q' E' ->
  (forall s, P s -> P' s) -> (forall a s, Q' a s -> Q a s) ->
  (forall e s, E' e s -> E e s) ->
  triple P m Q E.
Proof.
  intros H HP HQ HE s Hs. specialize (H s (HP s Hs)).
  destruct (m s) as [s1 [a|e]]; auto.
Qed.

Lemma triple_forEach {A} (I : Loop -> Prop) (l : list A) (body : A -> M unit) E :
  (forall a, In a l -> triple I (body a) (fun _ => I) E) ->
  triple I (forEach l body) (fun _ => I) E.
Proof.
  induction l as [|a l IH]; intros Hbody; cbn [forEach].
  - apply triple_ret. auto.
  - eapply triple_bind; [apply Hbody; now left|].
    intros u. apply IH. intros b Hb. apply Hbody. now right.
Qed.

Lemma triple_onCtx (P : Loop -> Prop) (f : Canvas -> Canvas)
    (Q : unit -> Loop -> Prop) E :
  (forall s, P s -> Q tt {| seed := seed s; ctx := f (ctx s) |}) ->
  triple P (onCtx f) Q E.
Proof. intros H s Hs. cbn. now apply H. Qed.

Lemma triple_lift {A} (P : Loop -> Prop) (c : Completion A)
    (Q : A -> Loop -> Prop) (E : Error -> Loop -> Prop) :
  (forall s, P s -> match c with Normal a => Q a s | Throw e => E e s end) ->
  triple P (lift c) Q E.
Proof. intros H s Hs. unfold lift. specialize (H s Hs). destruct c; exact H. Qed.

(** The colour of a cell touches the seed only. *)
Lemma cellColor_ctx browser options imgData workWidth workHeight cellSize y x s :
  ctx (fst (cellColor browser options imgData workWidth workHeight cellSize y x s)) = ctx s.
Proof.
  unfold cellColor, transform, jitter, jitterChannel, bind, nextSeed, ret, lift.
  destruct (average _) as [[r g] b].
  destruct (randomSeed options >? 0); cbn [fst snd ctx];
    destruct (styleFilter _ _ _); reflexivity.
Qed.

(** A cell throws only what its style filter throws, before it paints. *)
Lemma rainbowFilter_throws options rgb target e :
  rainbowFilter options rgb target = Throw e -> e = TypeError.
Proof.
  unfold rainbowFilter. destruct target as [[tR tG] tB]. cbv zeta.
  repeat (cbn [member];
          match goal with
          | |- context [if ?c then _ else _] => destruct c
          | |- context [member ?m] => destruct m
          end);
    cbn [member]; intros H; congruence.
Qed.

Lemma styleFilter_throws options rgb target e :
  styleFilter options rgb target = Throw e ->
  e = TypeError /\ (filter options = rainbow \/ filter options = popart).
Proof.
  unfold styleFilter. destruct target as [[tR tG] tB].
  destruct (filter options); try discriminate;
    intros H; apply rainbowFilter_throws in H; auto.
Qed.

(** [processImage] past its three early exits is the cell loop on the
    prepared canvas. *)
Lemma processImage_runs browser image canvas options :
  context2d canvas = true -> offscreenContext2d browser = true ->
  fst (workingSize image) <> 0 -> Qfloor (snd (workingSize image)) <> 0 ->
  processImage browser image canvas options
  = match gridRun browser image canvas options with
    | (s, Normal _) => (restore (ctx s), Normal tt)
    | (s, Throw e) => (ctx s, Throw e)
    end.
Proof.
  intros Hctx Hoff Hw Hh.
  unfold processImage, gridRun, sampled, prepared, rowsOf, cellSizeOf, sourceRect,
    getImageData, slate.
  unfold workingSize in *. rewrite Hctx, Hoff. cbn [negb].
  destruct (image_width image >? MAX_WIDTH); cbn [fst snd] in *.
  - apply Z.eqb_neq in Hw, Hh. rewrite Hw, Hh. reflexivity.
  - apply Z.eqb_neq in Hw, Hh. rewrite Hw, Hh. reflexivity.
Qed.

Lemma processImage_no_offscreen browser image canvas options :
  context2d canvas = true -> offscreenContext2d browser = false ->
  processImage browser image canvas options
  = (set_height (Qfloor (snd (workingSize image)))
       (set_width (fst (workingSize image)) canvas), Normal tt).
Proof.
  intros Hctx Hoff. unfold processImage, workingSize. rewrite Hctx, Hoff. cbn [negb].
  destruct (image_width image >? MAX_WIDTH); reflexivity.
Qed.

Lemma processImage_empty_surface browser image canvas options :
  context2d canvas = true -> offscreenContext2d browser = true ->
  fst (workingSize image) = 0 \/ Qfloor (snd (workingSize image)) = 0 ->
  processImage browser image canvas options
  = (set_height (Qfloor (snd (workingSize image)))
       (set_width (fst (workingSize image)) canvas), Throw IndexSizeError).
Proof.
  intros Hctx Hoff Hempty.
  assert (Hb : (fst (workingSize image) =? 0) || (Qfloor (snd (workingSize image)) =? 0) = true).
  { apply orb_true_iff. destruct Hempty as [H|H]; [left|right]; now apply Z.eqb_eq. }
  unfold processImage, getImageData. unfold workingSize in *. rewrite Hctx, Hoff. cbn [negb].
  destruct (image_width image >? MAX_WIDTH); cbn [fst snd] in *; rewrite Hb; reflexivity.
Qed.

Lemma cellColor_throws browser options imgData workWidth workHeight cellSize y x s s' e :
  cellColor browser options imgData workWidth workHeight cellSize y x s = (s', Throw e) ->
  e = TypeError /\ (filter options = rainbow \/ filter options = popart).
Proof.
  unfold cellColor, transform, jitter, jitterChannel, bind, nextSeed, ret, lift.
  destruct (average _) as [[r g] b].
  destruct (randomSeed options >? 0); cbn [fst snd];
    match goal with |- context [styleFilter ?o ?a ?t] => destruct (styleFilter o a t) eqn:E end;
    intros H; try discriminate; injection H as _ <-; eapply styleFilter_throws; exact E.
Qed.

(** What one turn of the loop does to the canvas: paints its cell over the
    canvas with the fill style assigned, or throws and leaves it. *)
Lemma cell_canvas browser options imgData workWidth workHeight shapePath cellSize y x
      (J : Canvas -> Prop) (R : Channels -> Prop) :
  (forall s s' rgb,
     cellColor browser options imgData workWidth workHeight cellSize y x s
       = (s', Normal rgb) -> R rgb) ->
  (forall c rgb, R rgb -> J c ->
     J (drawCell browser options shapePath cellSize
          (inject_Z x * cellSize) (inject_Z y * cellSize)
          (assignFillStyle (blink options x y rgb) c))) ->
  triple (fun s => J (ctx s))
         (cell browser options imgData workWidth workHeight shapePath cellSize y x)
         (fun _ s => J (ctx s))
         (fun e s => J (ctx s) /\ e = TypeError
                     /\ (filter options = rainbow \/ filter options = popart)).
Proof.
  intros HR HJ s Hs. unfold cell, bind.
  pose proof (cellColor_ctx browser options imgData workWidth workHeight cellSize y x s) as Hc.
  destruct (cellColor browser options imgData workWidth workHeight cellSize y x s)
    as [s1 [rgb|e]] eqn:E; cbn [fst] in Hc.
  - cbn [onCtx seed ctx]. rewrite Hc. apply HJ; [eapply HR; exact E | exact Hs].
  - rewrite Hc. split; [exact Hs|]. eapply cellColor_throws. exact E.
Qed.

(** The same of the whole loop. *)
Lemma grid_canvas browser options imgData workWidth workHeight shapePath cellSize rows
      (J : Canvas -> Prop) (R : Channels -> Prop) :
  (forall y x s s' rgb,
     In y (JS.range rows) -> In x (JS.range (gridSize options)) ->
     cellColor browser options imgData workWidth workHeight cellSize y x s
       = (s', Normal rgb) -> R rgb) ->
  (forall y x c rgb, R rgb -> J c ->
     J (drawCell browser options shapePath cellSize
          (inject_Z x * cellSize) (inject_Z y * cellSize)
          (assignFillStyle (blink options x y rgb) c))) ->
  triple (fun s => J (ctx s))
         (grid browser options imgData workWidth workHeight shapePath cellSize rows)
         (fun _ s => J (ctx s))
         (fun e s => J (ctx s) /\ e = TypeError
                     /\ (filter options = rainbow \/ filter options = popart)).
Proof.
  intros HR HJ. unfold grid.
  apply triple_forEach. intros y Hy. apply triple_forEach. intros x Hx.
  eapply triple_weaken.
  - apply (cell_canvas browser options imgData workWidth workHeight shapePath cellSize y x J R).
    + intros s s' rgb. apply HR; assumption.
    + apply HJ.
  - auto.
  - auto.
  - intros e s H. exact H.
Qed.

(** Past the early exits, what holds of the prepared canvas and is kept by
    painting a cell holds of the canvas [processImage] leaves, whether it
    returns or throws. *)
Lemma processImage_canvas browser image canvas options (J : Canvas -> Prop)
      (R : Channels -> Prop) :
  context2d canvas = true -> offscreenContext2d browser = true ->
  fst (workingSize image) <> 0 -> Qfloor (snd (workingSize image)) <> 0 ->
  J (prepared image canvas) ->
  (forall y x s s' rgb,
     In y (JS.range (rowsOf image options)) -> In x (JS.range (gridSize options)) ->
     cellColor browser options (sampled browser image options)
       (fst (workingSize image)) (snd (workingSize image)) (cellSizeOf image options) y x s
       = (s', Normal rgb) -> R rgb) ->
  (forall y x c rgb, R rgb -> J c ->
     J (drawCell browser options
          (silhouette options (fst (workingSize image)) (snd (workingSize image)))
          (cellSizeOf image options)
          (inject_Z x * cellSizeOf image options) (inject_Z y * cellSizeOf image options)
          (assignFillStyle (blink options x y rgb) c))) ->
  match processImage browser image canvas options with
  | (after, Normal _) => exists c, J c /\ after = restore c
  | (after, Throw e) =>
      J after /\ e = TypeError /\ (filter options = rainbow \/ filter options = popart)
  end.
Proof.
  intros Hctx Hoff Hw Hh Hstart HR HJ.
  rewrite processImage_runs by assumption. unfold gridRun.
  pose proof (grid_canvas browser options (sampled browser image options)
                (fst (workingSize image)) (snd (workingSize image))
                (silhouette options (fst (workingSize image)) (snd (workingSize image)))
                (cellSizeOf image options) (rowsOf image options) J R HR HJ
                {| seed := randomSeed options; ctx := prepared image canvas |} Hstart) as H.
  destruct (grid _ _ _ _ _ _ _ _ _) as [s [[]|e]].
  - exists (ctx s). split; [exact H | reflexivity].
  - exact H.
Qed.

Lemma drawCell_drawn browser options shapePath cellSize px py c :
  drawn (drawCell browser options shapePath cellSize px py c)
  = drawn c
    ++ (if isInside browser shapePath (px + cellSize * 0.1) (py + cellSize * 0.1)
                    (cellSize - cellSize * 0.1 * 2)
        then [cellFill (fillStyle c) cellSize px py] else []).
Proof.
  unfold drawCell, cellFill, drawRect.
  destruct (isInside _ _ _ _ _); [|now rewrite app_nil_r].
  destruct (shape options); reflexivity.
Qed.

Lemma drawCell_frame browser options shapePath cellSize px py c :
  canvas_width (drawCell browser options shapePath cellSize px py c) = canvas_width c
  /\ canvas_height (drawCell browser options shapePath cellSize px py c) = canvas_height c
  /\ fillStyle (drawCell browser options shapePath cellSize px py c) = fillStyle c
  /\ saved (drawCell browser options shapePath cellSize px py c) = saved c.
Proof.
  unfold drawCell. destruct (isInside _ _ _ _ _); [|tauto].
  destruct (shape options); cbn; tauto.
Qed.

Lemma assignFillStyle_frame rgb c :
  canvas_width (assignFillStyle rgb c) = canvas_width c
  /\ canvas_height (assignFillStyle rgb c) = canvas_height c
  /\ drawn (assignFillStyle rgb c) = drawn c
  /\ saved (assignFillStyle rgb c) = saved c.
Proof. destruct rgb as [[[r|] [g|]] [b|]]; cbn; tauto. Qed.

Lemma restore_frame c :
  canvas_width (restore c) = canvas_width c
  /\ canvas_height (restore c) = canvas_height c
  /\ drawn (restore c) = drawn c.
Proof. unfold restore. destruct (saved c); cbn; tauto. Qed.



Lemma prepared_frame image canvas :
  canvas_width (prepared image canvas) = fst (workingSize image)
  /\ canvas_height (prepared image canvas) = Qfloor (snd (workingSize image))
  /\ fillStyle (prepared image canvas) = slate
  /\ drawn (prepared image canvas)
     = [ clearRect 0 0 (inject_Z (fst (workingSize image))) (snd (workingSize image));
         fillRect slate 0 0 (inject_Z (fst (workingSize image))) (snd (workingSize image)) ].
Proof. unfold prepared. destruct (workingSize image) as [w h]. cbn. tauto. Qed.

(** ** The working resolution *)



(** ** How a call ends *)



(** ** What is painted *)







(** ** The colours of the style filter *)

Lemma index_In {A} (arr : list A) (i : Z) (a : A) : JS.index arr i = Some a -> In a arr.
Proof.
  unfold JS.index. destruct (i <? 0); [discriminate|]. apply nth_error_In.
Qed.

Lemma orange_In (palette : list RGB.t) (c : RGB.t) :
  match find isOrange palette with
  | Some o => Some o
  | None => JS.index palette 0
  end = Some c ->
  In c palette.
Proof.
  destruct (find isOrange palette) as [o|] eqn:E.
  - intros H. injection H as <-. apply find_some in E. tauto.
  - apply index_In.
Qed.

Lemma orange_found (palette : list RGB.t) :
  In (RGB.mk 255 127 0) palette -> find isOrange palette = Some (RGB.mk 255 127 0).
Proof.
  induction palette as [|c palette IH]; intros Hin; [destruct Hin|].
  cbn [find]. destruct (isOrange c) eqn:E.
  - unfold isOrange in E. apply andb_true_iff in E as [E Eb].
    apply andb_true_iff in E as [Er Eg].
    apply Z.eqb_eq in Er, Eg, Eb. destruct c as [r g b]. cbn in *. subst. reflexivity.
  - destruct Hin as [-> | Hin]; [discriminate E | now apply IH].
Qed.

(** What the rainbow and pop-art filters can return: black or white (only
    when the filter is not pop-art), or an entry of the palette. *)
Lemma rainbowFilter_output options rgb target out :
  rainbowFilter options rgb target = Normal out ->
  (isPopart (filter options) = false
   /\ (out = channels black \/ out = channels white))
  \/ exists c, In c (palette options) /\ out = channels c.
Proof.
  unfold rainbowFilter. destruct target as [[tR tG] tB]. cbv zeta.
  destruct ((Z.of_nat (length (palette options)) >? 5) && (randomSeed options >? 0)) eqn:Ebig.
  - assert (Hne : palette options <> []).
    { apply andb_true_iff in Ebig as [Elen _]. apply Z.gtb_lt in Elen.
      destruct (palette options); [cbn in Elen; lia | discriminate]. }
    destruct (closestChannels_In (tR, tG, tB) (palette options) Hne) as (c & Hin & Hc).
    rewrite Hc.
    repeat (cbn [member negb orb];
            match goal with
            | |- context [if ?c then _ else _] => destruct c eqn:?
            | |- context [member ?m] => destruct m eqn:?
            end);
      cbn [member negb orb]; intros H; try discriminate H; injection H as <-;
      first [ left; split; [reflexivity | (now left) || (now right)]
            | right; exists c; split; [exact Hin | reflexivity]
            | right; eexists; split; [eapply orange_In; eassumption | reflexivity] ].
  - repeat (cbn [member negb orb];
            match goal with
            | |- context [if ?c then _ else _] => destruct c eqn:?
            | |- context [member ?m] => destruct m eqn:?
            end);
      cbn [member negb orb]; intros H; try discriminate H; injection H as <-;
      first [ left; split; [reflexivity | (now left) || (now right)]
            | right; eexists; split; [eapply orange_In; eassumption | reflexivity]
            | right; eexists; split; [|reflexivity];
              match goal with
              | H : match ?b with Some _ => _ | None => None end = Some _ |- _ =>
                  destruct b; [eapply index_In; exact H | discriminate H]
              end ].
Qed.

(** X4.  The colour the style filter returns is: under no filter, the
    transformed colour itself; under noir, an entry of the palette (if it has
    any); under pop-art, always an entry of the palette; under rainbow, an
    entry of the palette, black or white. *)
Theorem styleFilter_returns_palette_colours (options : ProcessOptions)
    (rgb target out : Channels) :
  styleFilter options rgb target = Normal out ->
  match filter options with
  | none => out = target
  | noir => palette options <> [] -> exists c, In c (palette options) /\ out = channels c
  | popart => exists c, In c (palette options) /\ out = channels c
  | rainbow =>
      out = channels black \/ out = channels white
      \/ exists c, In c (palette options) /\ out = channels c
  end.
Proof.
  unfold styleFilter. destruct target as [[tR tG] tB].
  destruct (filter options) eqn:Hf.
  - intros H. now injection H as <-.
  - intros H Hne.
    destruct (closestChannels_In
                (option_map noirContrast (nan_map3 luma tR tG tB),
                 option_map noirContrast (nan_map3 luma tR tG tB),
                 option_map noirContrast (nan_map3 luma tR tG tB))
                (palette options) Hne) as (c & Hin & Hc).
    exists c. split; [exact Hin|]. rewrite <- Hc. congruence.
  - intros H. apply rainbowFilter_output in H as [[Hpop _] | H]; [|exact H].
    rewrite Hf in Hpop. discriminate Hpop.
  - intros H. apply rainbowFilter_output in H as [[_ [H | H]] | H]; auto.
Qed.

Lemma styleFilter_returns_palette_colours_witness :
  styleFilter (Host.options 1 rectangle popart [RGB.mk 9 8 7; RGB.mk 200 100 0] 0 false false)
    (Some 1, Some 2, Some 3) (Some 120, Some 90, Some 30)
  = Normal (channels (RGB.mk 9 8 7))
  /\ exists c,
       In c (palette (Host.options 1 rectangle popart [RGB.mk 9 8 7; RGB.mk 200 100 0]
                        0 false false))
       /\ channels (RGB.mk 9 8 7) = channels c.
Proof.
  assert (H : styleFilter
                (Host.options 1 rectangle popart [RGB.mk 9 8 7; RGB.mk 200 100 0] 0 false false)
                (Some 1, Some 2, Some 3) (Some 120, Some 90, Some 30)
              = Normal (channels (RGB.mk 9 8 7))) by (vm_compute; reflexivity).
  split; [exact H|].
  exact (styleFilter_returns_palette_colours
           (Host.options 1 rectangle popart [RGB.mk 9 8 7; RGB.mk 200 100 0] 0 false false)
           (Some 1, Some 2, Some 3) (Some 120, Some 90, Some 30)
           (channels (RGB.mk 9 8 7)) H).
Defined.

(** ** Colours stay colours *)

Lemma channels_inRange (c : RGB.t) : inRange c -> channelsInRange (channels c).
Proof.
  intros (Hr & Hg & Hb). unfold channels, channelsInRange.
  split; [|split]; intros v Hv; injection Hv as <-; assumption.
Qed.

Lemma noirContrast_range (gray : Z) : 0 <= noirContrast gray <= 255.
Proof. unfold noirContrast. destruct (Z.gtb_spec gray 128); lia. Qed.

Lemma adjust_inRange options target : channelsInRange (adjust options target).
Proof.
  unfold adjust. destruct target as [[tR tG] tB]. cbv zeta.
  split; [|split]; intros v Hv;
    match type of Hv with
    | option_map clamp255 ?t = Some _ =>
        destruct t; cbn [option_map] in Hv; [injection Hv as <-; apply clamp255_range
                                            | discriminate Hv]
    end.
Qed.

Lemma styleFilter_inRange options rgb target out :
  Forall inRange (palette options) -> channelsInRange target ->
  styleFilter options rgb target = Normal out -> channelsInRange out.
Proof.
  intros Hpal Htarget H.
  assert (Hentry : forall c, In c (palette options) -> channelsInRange (channels c)).
  { intros c Hc. apply channels_inRange. rewrite Forall_forall in Hpal. auto. }
  assert (Hout : match filter options with
                 | none => out = target
                 | noir =>
                     palette options <> [] ->
                     exists c, In c (palette options) /\ out = channels c
                 | popart => exists c, In c (palette options) /\ out = channels c
                 | rainbow =>
                     out = channels black \/ out = channels white
                     \/ exists c, In c (palette options) /\ out = channels c
                 end).
  { revert H. unfold styleFilter. destruct target as [[tR tG] tB].
    destruct (filter options) eqn:Hf.
    - intros H. now injection H as <-.
    - intros H Hne.
      destruct (closestChannels_In
                  (option_map noirContrast (nan_map3 luma tR tG tB),
                   option_map noirContrast (nan_map3 luma tR tG tB),
                   option_map noirContrast (nan_map3 luma tR tG tB))
                  (palette options) Hne) as (c & Hin & Hc).
      exists c. split; [exact Hin|]. rewrite <- Hc. congruence.
    - intros H. apply rainbowFilter_output in H as [[Hpop _] | H]; [|exact H].
      rewrite Hf in Hpop. discriminate Hpop.
    - intros H. apply rainbowFilter_output in H as [[_ [H | H]] | H]; auto. }
  destruct (filter options) eqn:Hf.
  - now subst.
  - destruct (palette options) as [|p ps] eqn:Hp.
    + unfold styleFilter in H. destruct target as [[tR tG] tB]. rewrite Hf, Hp in H.
      injection H as <-.
      destruct (nan_map3 luma tR tG tB) as [gray|]; cbn [option_map closestChannels].
      * apply (channels_inRange (RGB.mk _ _ _)).
        pose proof (noirContrast_range gray). repeat split; cbn; lia.
      * split; [|split]; discriminate.
    + destruct Hout as (c & Hc & ->); [discriminate | auto].
  - destruct Hout as (c & Hc & ->). auto.
  - destruct Hout as [-> | [-> | (c & Hc & ->)]]; auto;
      apply channels_inRange; repeat split; cbn; lia.
Qed.

Lemma desaturate_inRange options rgb :
  channelsInRange rgb -> channelsInRange (desaturate options rgb).
Proof.
  intros H. unfold desaturate. destruct (isDesaturated options) as [[|]|]; try exact H.
  destruct (closestChannels_In rgb DESATURATE_PALETTE) as (c & Hc & ->); [discriminate|].
  apply channels_inRange. cbn in Hc.
  repeat destruct Hc as [<- | Hc]; try contradiction; repeat split; cbn; lia.
Qed.

Lemma blink_inRange options x y rgb :
  channelsInRange rgb -> channelsInRange (blink options x y rgb).
Proof.
  intros H. unfold blink. destruct rgb as [[r g] b].
  destruct (blinkState options) as [[|]|]; try exact H.
  destruct ((Z.rem (x + 1) 10 =? 0) || (Z.rem (y + 1) 10 =? 0)); try exact H.
  destruct (nan_test _ _); (split; [|split]); intros v Hv; injection Hv as <-; lia.
Qed.

Lemma cellColor_inRange browser options imgData workWidth workHeight cellSize y x s s' rgb :
  Forall inRange (palette options) ->
  cellColor browser options imgData workWidth workHeight cellSize y x s = (s', Normal rgb) ->
  channelsInRange rgb.
Proof.
  intros Hpal H. unfold cellColor in H.
  apply bind_Normal in H as (s1 & target & Ht & H).
  apply bind_Normal in H as (s2 & filtered & Hf & H).
  unfold ret in H. injection H as _ <-.
  unfold transform in Ht. apply bind_Normal in Ht as (s3 & t & _ & Ht).
  unfold ret in Ht. injection Ht as _ <-.
  unfold lift in Hf. injection Hf as _ Hf.
  apply desaturate_inRange. eapply styleFilter_inRange; [exact Hpal | | exact Hf].
  apply adjust_inRange.
Qed.

(** X5.  With every palette entry a colour (channels of 0..255), whatever
    [processImage] leaves painted on a canvas with a context is painted in a
    colour: every fill style has its three channels within 0..255, for every
    image, brightness, saturation, seed and filter. *)
Theorem processImage_paints_colours (browser : Browser) (image : Image)
    (canvas : Canvas) (options : ProcessOptions) :
  context2d canvas = true -> Forall inRange (palette options) ->
  forall op style,
    In op (drawn (fst (processImage browser image canvas options))) ->
    styleOf op = Some style -> inRange style.
Proof.
  intros Hctx Hpal.
  set (J := fun c : Canvas =>
              inRange (fillStyle c)
              /\ forall op style, In op (drawn c) -> styleOf op = Some style -> inRange style).
  assert (Hslate : inRange slate) by (repeat split; cbn; lia).
  destruct (offscreenContext2d browser) eqn:Hoff;
    [|rewrite processImage_no_offscreen by assumption; cbn; contradiction].
  destruct (Z.eq_dec (fst (workingSize image)) 0) as [Hw|Hw];
    [rewrite processImage_empty_surface by auto; cbn; contradiction|].
  destruct (Z.eq_dec (Qfloor (snd (workingSize image))) 0) as [Hh|Hh];
    [rewrite processImage_empty_surface by auto; cbn; contradiction|].
  pose proof (processImage_canvas browser image canvas options J channelsInRange
                Hctx Hoff Hw Hh) as H.
  assert (Hdone : match processImage browser image canvas options with
                  | (after, Normal _) => exists c, J c /\ after = restore c
                  | (after, Throw e) =>
                      J after /\ e = TypeError
                      /\ (filter options = rainbow \/ filter options = popart)
                  end).
  { apply H.
    - destruct (prepared_frame image canvas) as (_ & _ & Hfs & Hd). unfold J.
      rewrite Hfs, Hd. split; [exact Hslate|].
      intros op style [<- | [<- | []]] Hs; cbn in Hs; [discriminate|].
      injection Hs as <-. exact Hslate.
    - intros y x s s' rgb _ _. now apply cellColor_inRange.
    - intros y x c rgb Hrgb [Hfs Hd]. unfold J.
      assert (Hassigned : inRange (fillStyle (assignFillStyle (blink options x y rgb) c))).
      { pose proof (blink_inRange options x y rgb Hrgb) as Hb.
        destruct (blink options x y rgb) as [[[r|] [g|]] [b|]]; cbn; try exact Hfs.
        destruct Hb as (Hr & Hg & Hb).
        specialize (Hr _ eq_refl). specialize (Hg _ eq_refl). specialize (Hb _ eq_refl).
        repeat split; cbn; lia. }
      destruct (drawCell_frame browser options
                  (silhouette options (fst (workingSize image)) (snd (workingSize image)))
                  (cellSizeOf image options)
                  (inject_Z x * cellSizeOf image options)
                  (inject_Z y * cellSizeOf image options)
                  (assignFillStyle (blink options x y rgb) c)) as (_ & _ & -> & _).
      split; [exact Hassigned|].
      intros op style Hop Hs. rewrite drawCell_drawn in Hop.
      destruct (assignFillStyle_frame (blink options x y rgb) c) as (_ & _ & Hsame & _).
      rewrite Hsame in Hop. apply in_app_or in Hop as [Hop | Hop]; [eauto|].
      destruct (isInside _ _ _ _ _); [|destruct Hop].
      destruct Hop as [<- | []]. unfold cellFill, drawRect in Hs. cbn in Hs.
      injection Hs as <-. exact Hassigned. }
  intros op style Hop Hs.
  destruct (processImage browser image canvas options) as [after [[]|e]]; cbn [fst] in Hop.
  - destruct Hdone as (c & [_ Hd] & ->).
    destruct (restore_frame c) as (_ & _ & Hsame). rewrite Hsame in Hop. eauto.
  - destruct Hdone as ([_ Hd] & _). eauto.
Qed.

Lemma processImage_paints_colours_witness :
  context2d Host.blank = true
  /\ Forall inRange [RGB.mk 255 127 0; RGB.mk 0 0 255]
  /\ forall op style,
       In op (drawn (fst (processImage Host.browser (Host.solid 4 4 (RGB.mk 200 90 40))
                            Host.blank
                            (Host.options 2 circle rainbow [RGB.mk 255 127 0; RGB.mk 0 0 255]
                               7 false true)))) ->
       styleOf op = Some style -> inRange style.
Proof.
  assert (Hpal : Forall inRange [RGB.mk 255 127 0; RGB.mk 0 0 255]).
  { repeat (apply Forall_cons; [repeat split; cbn; lia|]). apply Forall_nil. }
  split; [reflexivity|]. split; [exact Hpal|].
  exact (processImage_paints_colours Host.browser (Host.solid 4 4 (RGB.mk 200 90 40))
           Host.blank
           (Host.options 2 circle rainbow [RGB.mk 255 127 0; RGB.mk 0 0 255] 7 false true)
           eq_refl Hpal).
Defined.

(** ** Quantising twice *)

Lemma radicand_zero r g b c : radicand_of r g b c <= 0 -> c = RGB.mk r g b.
Proof.
  unfold radicand_of. destruct c as [cr cg cb]. cbn [RGB.r RGB.g RGB.b]. intros H.
  assert (r - cr = 0) by nia. assert (g - cg = 0) by nia. assert (b - cb = 0) by nia.
  f_equal; lia.
Qed.

Lemma getClosestColor_member r g b palette :
  In (RGB.mk r g b) palette -> getClosestColor r g b palette = RGB.mk r g b.
Proof.
  intros Hin. destruct palette as [|first rest]; [destruct Hin|].
  unfold getClosestColor.
  destruct (fold_closer_inv r g b (first :: rest) [] (Infinity, first))
    as [[Hnil _] | [i [_ [_ [Hmin _]]]]].
  - left. split; reflexivity.
  - discriminate Hnil.
  - cbn [app] in Hmin. apply In_nth_error in Hin as [j Hj].
    apply radicand_zero. specialize (Hmin j _ Hj).
    unfold radicand_of in Hmin at 2. cbn [RGB.r RGB.g RGB.b] in Hmin.
    rewrite !Z.sub_diag in Hmin. exact Hmin.
Qed.

(** X6.  A colour that is in the palette is its own nearest colour, so
    quantising is idempotent: the nearest colour of the nearest colour is the
    nearest colour, for every palette (the empty one included); and so is the
    desaturation pass. *)
Theorem quantising_twice_is_once (r g b : Z) (palette : list RGB.t)
    (options : ProcessOptions) (rgb : Channels) :
  (In (RGB.mk r g b) palette -> getClosestColor r g b palette = RGB.mk r g b)
  /\ getClosestColor (RGB.r (getClosestColor r g b palette))
                     (RGB.g (getClosestColor r g b palette))
                     (RGB.b (getClosestColor r g b palette)) palette
     = getClosestColor r g b palette
  /\ desaturate options (desaturate options rgb) = desaturate options rgb.
Proof.
  split; [apply getClosestColor_member|]. split.
  - destruct palette as [|first rest] eqn:Hp; [reflexivity|]. rewrite <- Hp.
    assert (Hin : In (getClosestColor r g b palette) palette)
      by (apply getClosestColor_In; rewrite Hp; discriminate).
    destruct (getClosestColor r g b palette) as [cr cg cb] eqn:Hc. cbn [RGB.r RGB.g RGB.b].
    now apply getClosestColor_member.
  - unfold desaturate. destruct (isDesaturated options) as [[|]|]; try reflexivity.
    destruct (closestChannels_In rgb DESATURATE_PALETTE) as (c & Hin & ->); [discriminate|].
    destruct c as [cr cg cb]. cbn [channels closestChannels RGB.r RGB.g RGB.b].
    now rewrite getClosestColor_member.
Qed.

Lemma quantising_twice_is_once_witness :
  In (RGB.mk 0 255 0) DESATURATE_PALETTE
  /\ getClosestColor 0 255 0 DESATURATE_PALETTE = RGB.mk 0 255 0.
Proof.
  assert (Hin : In (RGB.mk 0 255 0) DESATURATE_PALETTE) by (cbn; tauto).
  split; [exact Hin|].
  exact (proj1 (quantising_twice_is_once 0 255 0 DESATURATE_PALETTE Host.plain
                  (Some 1, Some 2, Some 3)) Hin).
Defined.

(** ** Noir is a threshold *)




(** ** The blink overlay *)




(** ** Rainbow styling *)

(** X9.  Under the rainbow filter, whatever the palette: a colour whose
    channels spread by less than 30 becomes black when the mean of its
    largest and smallest channel is below 120 and white otherwise; and a
    brownish colour (red above green above blue, red above 60, spread of 30
    to 119) becomes the orange (255, 127, 0) when the palette has it. *)
Theorem rainbow_greys_and_browns (options : ProcessOptions) (rgb : Channels)
    (tR tG tB : Z) :
  filter options = rainbow ->
  let hi := Z.max (Z.max tR tG) tB in
  let lo := Z.min (Z.min tR tG) tB in
  (hi - lo < 30 ->
   styleFilter options rgb (Some tR, Some tG, Some tB)
   = Normal (channels (if hi + lo <? 240 then black else white)))
  /\ (30 <= hi - lo < 120 -> tG < tR -> tB < tG -> 60 < tR ->
      In (RGB.mk 255 127 0) (palette options) ->
      styleFilter options rgb (Some tR, Some tG, Some tB)
      = Normal (channels (RGB.mk 255 127 0))).
Proof.
  intros Hrain hi lo. unfold styleFilter. rewrite Hrain.
  unfold rainbowFilter. rewrite Hrain.
  cbn [nan_map3 nan_map2 nan_test nan_gtb isPopart]. fold hi lo. split.
  - intros Hgrey. replace (hi - lo <? 30) with true by (symmetry; apply Z.ltb_lt; lia).
    assert (Hb : JS.Qltb (inject_Z (hi + lo) / 2) 120 = (hi + lo <? 240)).
    { destruct (Z.ltb_spec (hi + lo) 240) as [Hlt | Hge].
      - apply Qltb_lt. apply Qlt_shift_div_r; [reflexivity|].
        change (120 * 2)%Q with (inject_Z 240). rewrite <- Zlt_Qlt. exact Hlt.
      - apply not_true_iff_false. rewrite Qltb_lt. apply Qle_not_lt.
        apply Qle_shift_div_l; [reflexivity|].
        change (120 * 2)%Q with (inject_Z 240). rewrite <- Zle_Qle. exact Hge. }
    rewrite Hb. destruct (hi + lo <? 240); reflexivity.
  - intros Hspread HRG HGB HR Horange.
    replace (hi - lo <? 30) with false by (symmetry; apply Z.ltb_ge; lia).
    replace (tR >? tG) with true by (symmetry; apply Z.gtb_lt; lia).
    replace (tG >? tB) with true by (symmetry; apply Z.gtb_lt; lia).
    replace (tR >? 60) with true by (symmetry; apply Z.gtb_lt; lia).
    replace (hi - lo <? 120) with true by (symmetry; apply Z.ltb_lt; lia).
    cbn [andb]. rewrite (orange_found _ Horange). reflexivity.
Qed.

Lemma rainbow_greys_and_browns_witness :
  filter (Host.options 1 rectangle rainbow [RGB.mk 0 0 255; RGB.mk 255 127 0] 0 false false)
  = rainbow
  /\ styleFilter
       (Host.options 1 rectangle rainbow [RGB.mk 0 0 255; RGB.mk 255 127 0] 0 false false)
       (Some 0, Some 0, Some 0) (Some 150, Some 100, Some 60)
     = Normal (channels (RGB.mk 255 127 0)).
Proof.
  split; [reflexivity|].
  apply (proj2 (rainbow_greys_and_browns
                  (Host.options 1 rectangle rainbow [RGB.mk 0 0 255; RGB.mk 255 127 0]
                     0 false false)
                  (Some 0, Some 0, Some 0) 150 100 60 eq_refl)); cbn; lia || tauto.
Defined.

(** ** Brightness and saturation at their ends *)

Lemma clamp255_comp (t u : Q) : (t == u)%Q -> clamp255 t = clamp255 u.
Proof.
  intros H. unfold clamp255, JS.Math_round. f_equal. f_equal.
  apply Qfloor_comp. now rewrite H.
Qed.

(** X10.  Saturation 0 turns every colour into a grey, its three channels
    equal; brightness 0 turns every colour black; whatever the jitter gave. *)
Theorem adjust_at_zero (options : ProcessOptions) (tR tG tB : Q) :
  (forall s, saturation options = Some s -> (s == 0)%Q ->
   exists grey, adjust options (Some tR, Some tG, Some tB) = (Some grey, Some grey, Some grey))
  /\ (forall v, brightness options = Some v -> (v == 0)%Q ->
      adjust options (Some tR, Some tG, Some tB) = (Some 0, Some 0, Some 0)).
Proof.
  split.
  - intros s Hs Hs0. unfold adjust. rewrite Hs. cbv zeta. cbn [option_map nan_map3 nan_map2].
    set (v := match brightness options with Some v => v | None => 1%Q end).
    exists (clamp255 (0.2989 * (tR * v) + 0.5870 * (tG * v) + 0.1140 * (tB * v))).
    repeat match goal with
           | |- (_, _) = (_, _) => f_equal
           | |- Some _ = Some _ => f_equal
           end; apply clamp255_comp; rewrite Hs0; ring.
  - intros v Hv Hv0. unfold adjust. rewrite Hv. cbv zeta. cbn [option_map nan_map3 nan_map2].
    rewrite !(clamp255_exact _ 0); try reflexivity; try lia; rewrite Hv0; ring.
Qed.

Lemma adjust_at_zero_witness :
  saturation (Build_ProcessOptions 5 circle none [] 0 1 0 0 None (Some 0%Q) (Some (3 # 2)) None)
  = Some 0%Q
  /\ exists grey,
       adjust (Build_ProcessOptions 5 circle none [] 0 1 0 0 None (Some 0%Q) (Some (3 # 2)) None)
              (Some 200%Q, Some 30%Q, Some 90%Q)
       = (Some grey, Some grey, Some grey).
Proof.
  split; [reflexivity|].
  apply (proj1 (adjust_at_zero
                  (Build_ProcessOptions 5 circle none [] 0 1 0 0 None (Some 0%Q)
                     (Some (3 # 2)) None) 200 30 90) 0%Q); reflexivity.
Defined.

(** ** The grid over the surface *)









(** ** The state of the context *)

(** X12.  [processImage] saves the state of the context once and restores
    it once, at the end of the cell loop.  When it returns, and when the
    surface is empty, the context is in its default state: nothing saved, the
    fill style black.  When a cell throws, the restore is skipped and the one
    saved state stays on the stack. *)
Theorem processImage_context_state (browser : Browser) (image : Image)
    (canvas : Canvas) (options : ProcessOptions) :
  context2d canvas = true ->
  match processImage browser image canvas options with
  | (after, Throw TypeError) => saved after = [black]
  | (after, _) => saved after = [] /\ fillStyle after = black
  end.
Proof.
  intros Hctx.
  destruct (offscreenContext2d browser) eqn:Hoff;
    [|rewrite processImage_no_offscreen by assumption; cbn; tauto].
  destruct (Z.eq_dec (fst (workingSize image)) 0) as [Hw|Hw];
    [rewrite processImage_empty_surface by auto; cbn; tauto|].
  destruct (Z.eq_dec (Qfloor (snd (workingSize image))) 0) as [Hh|Hh];
    [rewrite processImage_empty_surface by auto; cbn; tauto|].
  pose proof (processImage_canvas browser image canvas options
                (fun c => saved c = [black]) (fun _ => True) Hctx Hoff Hw Hh) as H.
  assert (Hstart : saved (prepared image canvas) = [black]).
  { unfold prepared. destruct (workingSize image). reflexivity. }
  assert (Hcell : forall y x c rgb, True -> saved c = [black] ->
            saved (drawCell browser options
                     (silhouette options (fst (workingSize image)) (snd (workingSize image)))
                     (cellSizeOf image options)
                     (inject_Z x * cellSizeOf image options)
                     (inject_Z y * cellSizeOf image options)
                     (assignFillStyle (blink options x y rgb) c)) = [black]).
  { intros y x c rgb _ Hc.
    destruct (drawCell_frame browser options
                (silhouette options (fst (workingSize image)) (snd (workingSize image)))
                (cellSizeOf image options)
                (inject_Z x * cellSizeOf image options)
                (inject_Z y * cellSizeOf image options)
                (assignFillStyle (blink options x y rgb) c)) as (_ & _ & _ & ->).
    destruct (assignFillStyle_frame (blink options x y rgb) c) as (_ & _ & _ & ->).
    exact Hc. }
  specialize (H Hstart (fun _ _ _ _ _ _ _ _ => I) Hcell).
  destruct (processImage browser image canvas options) as [after [[]|e]].
  - destruct H as (c & Hc & ->). unfold restore. rewrite Hc. cbn. tauto.
  - destruct H as (Hsaved & -> & _). exact Hsaved.
Qed.

Lemma processImage_context_state_witness :
  saved (fst (processImage Host.browser (Host.solid 4 4 (RGB.mk 200 90 40)) Host.blank
                (Host.options 2 rectangle popart [] 0 false false))) = [black].
Proof.
  exact (processImage_context_state Host.browser (Host.solid 4 4 (RGB.mk 200 90 40))
           Host.blank (Host.options 2 rectangle popart [] 0 false false) eq_refl).
Defined.

(** ** Returning *)




Lemma rainbowFilter_returns options rgb (tR tG tB : Z) :
  palette options <> [] ->
  0 <= tR <= 255 -> 0 <= tG <= 255 -> 0 <= tB <= 255 ->
  exists out, rainbowFilter options rgb (Some tR, Some tG, Some tB) = Normal out.
Proof.
  intros Hne Hr Hg Hb. unfold rainbowFilter. cbv zeta. cbn [nan_map3 nan_map2 nan_test nan_gtb].
  destruct (index_Some (palette options) (gradientIndex (luma tR tG tB) (palette options)))
    as [c Hc].
  { pose proof (gradientIndex_range (luma tR tG tB) (palette options)
                  (luma_range tR tG tB Hr Hg Hb) Hne). lia. }
  rewrite Hc.
  assert (Horange : exists o, match find isOrange (palette options) with
                              | Some c => Some c
                              | None => JS.index (palette options) 0
                              end = Some o).
  { destruct (find isOrange (palette options)) as [o|]; [now exists o|].
    destruct (palette options) as [|p ps]; [congruence | now exists p]. }
  destruct Horange as [o ->]. cbn [member].
  repeat match goal with
         | |- context [if ?c then _ else _] => destruct c
         end; eexists; reflexivity.
Qed.

Lemma styleFilter_returns options rgb (tR tG tB : Z) :
  (filter options = rainbow \/ filter options = popart -> palette options <> []) ->
  0 <= tR <= 255 -> 0 <= tG <= 255 -> 0 <= tB <= 255 ->
  exists out, styleFilter options rgb (Some tR, Some tG, Some tB) = Normal out.
Proof.
  intros Hne Hr Hg Hb. unfold styleFilter.
  destruct (filter options); try (eexists; reflexivity);
    apply rainbowFilter_returns; auto.
Qed.





(** The whole height is needed: an image of 2400 by 3 is worked on at 1200
    by 1.5, its second row of cells reads past the one row of the buffer, and
    pop-art throws although the palette has entries. *)
Example fractional_height_throws :
  snd (processImage Host.browser (Build_Image 2400 3 []) Host.blank
         (Host.options 1200 rectangle popart [black; white] 0 false false))
  = Throw TypeError.
Proof. vm_compute. reflexivity. Qed.

(** ** Zoom and panning *)

(** The clamp of a source coordinate: [d] is the room left beside the
    source rectangle, [off] the panning offset. *)
Lemma pan_clamp (d off : Q) :
  (0 <= d)%Q ->
  (0 <= Qmax 0 (Qmin d (d / 2 + off * d)) <= d)%Q
  /\ ((- (1 # 2) <= off <= 1 # 2)%Q ->
      (Qmax 0 (Qmin d (d / 2 + off * d)) == ((1 # 2) + off) * d)%Q).
Proof.
  intros Hd. split; [split|].
  - apply Q.le_max_l.
  - apply Q.max_lub; [exact Hd | apply Q.le_min_l].
  - intros [Hlo Hhi].
    assert (Hraw : (d / 2 + off * d == ((1 # 2) + off) * d)%Q) by field.
    assert (H0 : (0 <= ((1 # 2) + off) * d)%Q) by (apply Qmult_le_0_compat; lra).
    assert (H1 : (((1 # 2) + off) * d <= d)%Q).
    { rewrite <- (Qmult_1_l d) at 2. apply Qmult_le_compat_r; lra. }
    rewrite Q.min_r by (rewrite Hraw; exact H1).
    rewrite Q.max_r by (rewrite Hraw; exact H0).
    exact Hraw.
Qed.

Lemma zoomed_room (size zoom : Q) :
  (0 <= size)%Q -> (1 <= zoom)%Q ->
  (0 <= size / zoom <= size)%Q /\ (size / zoom * zoom == size)%Q.
Proof.
  intros Hs Hz.
  assert (Hinv : (size / zoom * zoom == size)%Q) by (field; lra).
  assert (H0 : (0 <= size / zoom)%Q) by (apply Qle_shift_div_l; lra).
  split; [split; [exact H0|]|exact Hinv].
  assert (H1 : (0 <= size / zoom * (zoom - 1))%Q) by (apply Qmult_le_0_compat; lra).
  lra.
Qed.

(** X14.  The source rectangle for a zoom of at least 1 lies within the
    image; it is the image shrunk by the zoom factor in both directions;
    panning offsets between -1/2 and 1/2 move it in proportion, from one edge
    of the image (-1/2) through the centre (0) to the other edge (1/2) without
    reaching the clamp; and at zoom 1 it is the whole image whatever the
    offsets. *)
Theorem sourceRect_within_image (image : Image) (options : ProcessOptions) :
  0 <= image_width image -> 0 <= image_height image -> (1 <= zoom options)%Q ->
  let width := inject_Z (image_width image) in
  let height := inject_Z (image_height image) in
  let '(sx, sy, sWidth, sHeight) := sourceRect image options in
  ((0 <= sx /\ sx + sWidth <= width /\ 0 <= sy /\ sy + sHeight <= height)
   /\ (sWidth * zoom options == width /\ sHeight * zoom options == height)
   /\ (- (1 # 2) <= offsetX options <= 1 # 2 ->
       sx == ((1 # 2) + offsetX options) * (width - sWidth))
   /\ (- (1 # 2) <= offsetY options <= 1 # 2 ->
       sy == ((1 # 2) + offsetY options) * (height - sHeight))
   /\ (zoom options == 1 ->
       sx == 0 /\ sy == 0 /\ sWidth == width /\ sHeight == height))%Q.
Proof.
  intros Hw Hh Hz width height. unfold sourceRect. cbv zeta.
  assert (Hnz : Qeq_bool (zoom options) 0 = false).
  { destruct (Qeq_bool (zoom options) 0) eqn:E; [|reflexivity].
    apply Qeq_bool_eq in E. lra. }
  rewrite Hnz. fold width height.
  assert (Hwq : (0 <= width)%Q)
    by (unfold width; change 0%Q with (inject_Z 0); now rewrite <- Zle_Qle).
  assert (Hhq : (0 <= height)%Q)
    by (unfold height; change 0%Q with (inject_Z 0); now rewrite <- Zle_Qle).
  destruct (zoomed_room width (zoom options) Hwq Hz) as [[Hsw0 Hsw1] Hswz].
  destruct (zoomed_room height (zoom options) Hhq Hz) as [[Hsh0 Hsh1] Hshz].
  set (sWidth := (width / zoom options)%Q) in *.
  set (sHeight := (height / zoom options)%Q) in *.
  assert (Hdx : (0 <= width - sWidth)%Q) by lra.
  assert (Hdy : (0 <= height - sHeight)%Q) by lra.
  destruct (pan_clamp (width - sWidth) (offsetX options) Hdx) as [[Hx0 Hx1] Hxpan].
  destruct (pan_clamp (height - sHeight) (offsetY options) Hdy) as [[Hy0 Hy1] Hypan].
  set (sx := Qmax 0 (Qmin (width - sWidth)
                       ((width - sWidth) / 2 + offsetX options * (width - sWidth)))) in *.
  set (sy := Qmax 0 (Qmin (height - sHeight)
                       ((height - sHeight) / 2 + offsetY options * (height - sHeight)))) in *.
  split; [repeat split; lra|]. split; [split; assumption|].
  split; [exact Hxpan|]. split; [exact Hypan|].
  intros Hone. rewrite Hone, Qmult_1_r in Hswz, Hshz. repeat split; lra.
Qed.

Lemma sourceRect_within_image_witness :
  let '(sx, sy, sWidth, sHeight) :=
    sourceRect (Build_Image 800 600 [])
      (Build_ProcessOptions 40 circle none [] 0 2 (1 # 2) (- (1 # 4)) None None None None) in
  (0 <= sx /\ sx + sWidth <= inject_Z 800 /\ 0 <= sy /\ sy + sHeight <= inject_Z 600)%Q.
Proof.
  assert (Hw : 0 <= image_width (Build_Image 800 600 [])) by (cbn; lia).
  assert (Hh : 0 <= image_height (Build_Image 800 600 [])) by (cbn; lia).
  assert (Hz : (1 <= zoom (Build_ProcessOptions 40 circle none [] 0 2 (1 # 2) (- (1 # 4))
                             None None None None))%Q) by (cbn; lra).
  pose proof (sourceRect_within_image (Build_Image 800 600 [])
                (Build_ProcessOptions 40 circle none [] 0 2 (1 # 2) (- (1 # 4))
                   None None None None) Hw Hh Hz) as H.
  cbv zeta in H.
  destruct (sourceRect (Build_Image 800 600 [])
              (Build_ProcessOptions 40 circle none [] 0 2 (1 # 2) (- (1 # 4))
                 None None None None)) as [[[sx sy] sWidth] sHeight].
  exact (proj1 H).
Defined.

(** ** The gradient mapping *)

Lemma luma_grey (v : Z) : luma v v v = v.
Proof.
  rewrite luma_Z. replace (299 * v + 587 * v + 114 * v + 500) with (500 + v * 1000) by ring.
  rewrite Z.div_add by lia. reflexivity.
Qed.

(** X15.  The gradient mapping of pop-art and rainbow (brightness to
    palette index) is monotone: a brighter colour never maps to an earlier
    entry; brightness 0 maps to the first entry; and with at most 256
    entries it is onto: every entry of the palette is the image of some
    brightness of 0..255 (of the grey of that value), the last entry that of
    255. *)
Theorem gradient_mapping_monotone_onto (palette : list RGB.t) :
  palette <> [] ->
  let n := Z.of_nat (length palette) in
  (forall b1 b2, 0 <= b1 <= b2 -> gradientIndex b1 palette <= gradientIndex b2 palette)
  /\ gradientIndex 0 palette = 0
  /\ (n <= 256 ->
      gradientIndex 255 palette = n - 1
      /\ forall k, 0 <= k < n ->
           exists v, 0 <= v <= 255 /\ gradientIndex (luma v v v) palette = k).
Proof.
  intros Hne n.
  assert (Hn : 1 <= n).
  { unfold n. destruct palette; [congruence | cbn [length]; lia]. }
  split; [|split].
  - intros b1 b2 Hb. rewrite !gradientIndex_Z. fold n.
    apply Z.min_le_compat_r. apply Z.div_le_mono; [lia | nia].
  - rewrite gradientIndex_Z. fold n. cbn. lia.
  - intros Hmost. split.
    + rewrite gradientIndex_Z. fold n.
      assert (n - 1 <= 255 * n / 256) by (apply Z.div_le_lower_bound; lia).
      lia.
    + intros k Hk. exists ((256 * k + n - 1) / n).
      pose proof (Z.mul_div_le (256 * k + n - 1) n ltac:(lia)) as Hlo.
      pose proof (Z.mul_succ_div_gt (256 * k + n - 1) n ltac:(lia)) as Hhi.
      set (v := (256 * k + n - 1) / n) in *.
      assert (Hv0 : 0 <= v) by (apply Z.div_pos; lia).
      assert (Hv : v <= 255) by nia.
      split; [lia|]. rewrite luma_grey, gradientIndex_Z. fold n.
      assert (Hdiv : v * n / 256 = k).
      { symmetry. apply Z.div_unique with (r := v * n - 256 * k); lia. }
      lia.
Qed.

Lemma gradient_mapping_monotone_onto_witness :
  gradientIndex 40 DESATURATE_PALETTE <= gradientIndex 200 DESATURATE_PALETTE.
Proof.
  apply (proj1 (gradient_mapping_monotone_onto DESATURATE_PALETTE ltac:(discriminate))).
  lia.
Defined.

(** ** What the engine asks of its host *)

Lemma forEach_ext {A} (l : list A) (f g : A -> M unit) :
  (forall a s, In a l -> f a s = g a s) -> forall s, forEach l f s = forEach l g s.
Proof.
  induction l as [|a l IH]; intros Hfg s; cbn [forEach]; [reflexivity|].
  unfold bind. rewrite (Hfg a s) by now left.
  destruct (g a s) as [s1 [[]|e]]; [|reflexivity].
  apply IH. intros b s' Hb. apply Hfg. now right.
Qed.

Lemma jitter_ext (b1 b2 : Browser) options rgb s :
  (0 < randomSeed options -> forall n, Math_sin b1 n = Math_sin b2 n) ->
  jitter b1 options rgb s = jitter b2 options rgb s.
Proof.
  intros Hsin. unfold jitter. destruct rgb as [[r g] b].
  destruct (Z.gtb_spec (randomSeed options) 0) as [Hpos|]; [|reflexivity].
  unfold jitterChannel, bind, nextSeed, ret, prng. cbn [seed ctx].
  rewrite !(Hsin Hpos). reflexivity.
Qed.

Lemma isInside_ext (b1 b2 : Browser) shapePath drawX drawY drawSize :
  (forall path, shapePath = Some path ->
     forall x y, isPointInPath b1 path x y = isPointInPath b2 path x y) ->
  isInside b1 shapePath drawX drawY drawSize = isInside b2 shapePath drawX drawY drawSize.
Proof.
  intros Hpath. unfold isInside. destruct shapePath as [path|]; [|reflexivity].
  now rewrite !(Hpath path eq_refl).
Qed.

Lemma cell_ext (b1 b2 : Browser) options imgData workWidth workHeight shapePath cellSize
      y x s :
  (0 < randomSeed options -> forall n, Math_sin b1 n = Math_sin b2 n) ->
  (forall path, shapePath = Some path ->
     forall x y, isPointInPath b1 path x y = isPointInPath b2 path x y) ->
  cell b1 options imgData workWidth workHeight shapePath cellSize y x s
  = cell b2 options imgData workWidth workHeight shapePath cellSize y x s.
Proof.
  intros Hsin Hpath. unfold cell, cellColor, transform, bind.
  rewrite (jitter_ext b1 b2) by exact Hsin.
  destruct (jitter b2 options _ s) as [s1 [target|e]]; [|reflexivity].
  unfold ret, lift. destruct (styleFilter options _ _); [|reflexivity].
  unfold onCtx, drawCell. cbn [seed ctx]. rewrite (isInside_ext b1 b2) by exact Hpath.
  reflexivity.
Qed.

(** X16.  All that [processImage] takes from its host: whether a new
    canvas gives a 2D context; the bytes of one resampling, of the source
    rectangle at the working resolution; [Math.sin], only when the seed is
    above 0; and [isPointInPath], only on the silhouette path, so never for
    the rectangle shape.  Two hosts that agree on these give the same
    canvas and the same result. *)
Theorem processImage_asks_of_host (b1 b2 : Browser) (image : Image) (canvas : Canvas)
    (options : ProcessOptions) :
  offscreenContext2d b1 = offscreenContext2d b2 ->
  sampled b1 image options = sampled b2 image options ->
  (0 < randomSeed options -> forall n, Math_sin b1 n = Math_sin b2 n) ->
  (forall path,
     silhouette options (fst (workingSize image)) (snd (workingSize image)) = Some path ->
     forall x y, isPointInPath b1 path x y = isPointInPath b2 path x y) ->
  processImage b1 image canvas options = processImage b2 image canvas options.
Proof.
  intros Hoff Hbytes Hsin Hpath.
  destruct (context2d canvas) eqn:Hctx;
    [|unfold processImage; rewrite Hctx; reflexivity].
  destruct (offscreenContext2d b2) eqn:Hoff2.
  - destruct (Z.eq_dec (fst (workingSize image)) 0) as [Hw|Hw];
      [rewrite !processImage_empty_surface by auto; reflexivity|].
    destruct (Z.eq_dec (Qfloor (snd (workingSize image))) 0) as [Hh|Hh];
      [rewrite !processImage_empty_surface by auto; reflexivity|].
    rewrite !processImage_runs by assumption. unfold gridRun, grid. rewrite Hbytes.
    rewrite (forEach_ext _ _
               (fun y => forEach (JS.range (gridSize options))
                  (fun x => cell b2 options (sampled b2 image options)
                              (fst (workingSize image)) (snd (workingSize image))
                              (silhouette options (fst (workingSize image))
                                 (snd (workingSize image)))
                              (cellSizeOf image options) y x))); [reflexivity|].
    intros y s _. apply forEach_ext. intros x s' _. now apply cell_ext.
  - rewrite !processImage_no_offscreen by assumption. reflexivity.
Qed.

Lemma processImage_asks_of_host_witness :
  processImage Host.browser (Host.solid 4 4 (RGB.mk 200 90 40)) Host.blank
    (Host.options 2 rectangle noir [black; white] 0 false false)
  = processImage (Build_Browser (fun _ => 0%Q) true Host.resample (fun _ _ _ => false))
      (Host.solid 4 4 (RGB.mk 200 90 40)) Host.blank
      (Host.options 2 rectangle noir [black; white] 0 false false).
Proof.
  apply processImage_asks_of_host.
  - reflexivity.
  - reflexivity.
  - cbn. lia.
  - cbn. discriminate.
Defined.

(** ** The fill of a cell *)

(** X17.  A painted cell is one rounded square in the fill style of the
    context, of side 0.8 of the cell size and corner radius a fifth of that
    side, lying strictly inside its cell: a tenth of the cell size from each
    edge, so that the fills of two cells never touch. *)
Theorem cell_fill_inside_cell (browser : Browser) (options : ProcessOptions)
    (shapePath : option Path2D) (cellSize : Q) (y x : Z) (c : Canvas) :
  (0 < cellSize)%Q ->
  let px := (inject_Z x * cellSize)%Q in
  let py := (inject_Z y * cellSize)%Q in
  drawn (drawCell browser options shapePath cellSize px py c) = drawn c
  \/ exists X Y side,
       drawn (drawCell browser options shapePath cellSize px py c)
       = drawn c ++ [fillRoundRect (fillStyle c) X Y side side (side * 0.2)]
       /\ (side == 0.8 * cellSize
           /\ X == px + 0.1 * cellSize /\ Y == py + 0.1 * cellSize
           /\ px < X /\ X + side < inject_Z (x + 1) * cellSize
           /\ py < Y /\ Y + side < inject_Z (y + 1) * cellSize
           /\ side * 0.2 <= side / 2)%Q.
Proof.
  intros Hcs px py. rewrite drawCell_drawn.
  destruct (isInside _ _ _ _ _); [right | left; apply app_nil_r].
  unfold cellFill, drawRect. do 3 eexists. split; [reflexivity|].
  rewrite !inject_Z_plus. change (inject_Z 1) with 1%Q. subst px py.
  repeat split; first [ring | lra | apply Qle_shift_div_l; [reflexivity | lra]].
Qed.

Lemma cell_fill_inside_cell_witness :
  drawn (drawCell Host.browser Host.plain None 10 (inject_Z 3 * 10) (inject_Z 0 * 10)
           Host.blank)
  = drawn Host.blank
  \/ exists X Y side,
       drawn (drawCell Host.browser Host.plain None 10 (inject_Z 3 * 10) (inject_Z 0 * 10)
                Host.blank)
       = drawn Host.blank
         ++ [fillRoundRect (fillStyle Host.blank) X Y side side (side * 0.2)]
       /\ (side == 0.8 * 10
           /\ X == inject_Z 3 * 10 + 0.1 * 10 /\ Y == inject_Z 0 * 10 + 0.1 * 10
           /\ inject_Z 3 * 10 < X /\ X + side < inject_Z (3 + 1) * 10
           /\ inject_Z 0 * 10 < Y /\ Y + side < inject_Z (0 + 1) * 10
           /\ side * 0.2 <= side / 2)%Q.
Proof.
  apply (cell_fill_inside_cell Host.browser Host.plain None 10 0 3 Host.blank). reflexivity.
Defined.

(** ** The heart *)

(** X18.  The heart path is closed by its last curve, which ends where the
    path starts, at the notch [(x + width / 2, y + 0.3 height)]; its start,
    control points and curve ends all lie in the box of the given size; its
    tip is the middle of the bottom edge; and it is its own mirror image in
    the vertical line through the middle: each point is the mirror image of
    the point as far from the end of the path as it is from the start. *)
Theorem heart_path_closed_symmetric (x y width height : Q) :
  (0 <= width)%Q -> (0 <= height)%Q ->
  let points := pathPoints (getHeartPath x y width height) in
  length points = 13%nat
  /\ last (getHeartPath x y width height) (moveTo 0 0) = closePath
  /\ samePoint (nth 0 points (0, 0)%Q) (x + width / 2, y + 0.3 * height)%Q
  /\ samePoint (nth 12 points (0, 0)%Q) (nth 0 points (0, 0)%Q)
  /\ samePoint (nth 6 points (0, 0)%Q) (x + width / 2, y + height)%Q
  /\ Forall (fun p => x <= fst p <= x + width /\ y <= snd p <= y + height)%Q points
  /\ Forall2 samePoint points (map (mirror (x + width / 2)) (rev points)).
Proof.
  intros Hw Hh points. unfold points, getHeartPath, pathPoints.
  cbn [flat_map app length nth last rev map mirror fst snd].
  assert (Hhalf : (0 <= width / 2 <= width)%Q).
  { split; [apply Qle_shift_div_l; lra | apply Qle_shift_div_r; lra]. }
  split; [reflexivity|]. split; [reflexivity|].
  split; [split; cbn [fst snd]; ring|].
  split; [split; cbn [fst snd]; ring|].
  split; [split; cbn [fst snd]; ring|].
  split.
  - repeat (apply Forall_cons; [cbn [fst snd]; repeat split; lra|]). apply Forall_nil.
  - repeat (apply Forall2_cons; [unfold samePoint, mirror; cbn [fst snd]; split; field|]).
    apply Forall2_nil.
Qed.

Lemma heart_path_closed_symmetric_witness :
  Forall (fun p => 0 <= fst p <= 0 + 1200 /\ 0 <= snd p <= 0 + 900)%Q
         (pathPoints (getHeartPath 0 0 1200 900)).
Proof.
  assert (Hw : (0 <= 1200)%Q) by lra. assert (Hh : (0 <= 900)%Q) by lra.
  exact (proj1 (proj2 (proj2 (proj2 (proj2 (proj2
           (heart_path_closed_symmetric 0 0 1200 900 Hw Hh))))))).
Defined.

(** ** Desaturation as a threshold *)

Lemma rgb_eq_dec (p q : RGB.t) : {p = q} + {p <> q}.
Proof. decide equality; apply Z.eq_dec. Qed.

(** An entry strictly nearer than every other entry is the one returned. *)
Lemma getClosestColor_unique r g b palette k :
  In k palette ->
  (forall q, In q palette -> q <> k -> radicand_of r g b k < radicand_of r g b q) ->
  getClosestColor r g b palette = k.
Proof.
  intros Hin Hnear. destruct palette as [|first rest]; [destruct Hin|].
  unfold getClosestColor.
  destruct (fold_closer_inv r g b (first :: rest) [] (Infinity, first))
    as [[Hnil _] | [i [_ [Hi [Hmin _]]]]].
  - left. split; reflexivity.
  - discriminate Hnil.
  - cbn [app] in *.
    set (c := snd (fold_left (closer r g b) (first :: rest) (Infinity, first))) in *.
    destruct (rgb_eq_dec c k) as [E|E]; [exact E|]. exfalso.
    apply nth_error_In in Hi. specialize (Hnear c Hi E).
    apply In_nth_error in Hin as [j Hj]. specialize (Hmin j k Hj). lia.
Qed.

Lemma nearEnd_nearer (v : Z) :
  0 <= v <= 255 -> (v - nearEnd v) ^ 2 < (v - (255 - nearEnd v)) ^ 2.
Proof. intros Hv. unfold nearEnd. destruct (Z.ltb_spec v 128); nia. Qed.

(** X19.  The desaturation pass is a threshold on each channel: a colour
    of 0..255 goes to the corner of the colour cube nearest to it, each
    channel to 0 below 128 and to 255 from 128 on, unless that corner is cyan
    (0, 255, 255), the one corner the palette lacks. *)
Theorem desaturate_is_threshold (options : ProcessOptions) (r g b : Z) :
  isDesaturated options = Some true ->
  0 <= r <= 255 -> 0 <= g <= 255 -> 0 <= b <= 255 ->
  RGB.mk (nearEnd r) (nearEnd g) (nearEnd b) <> RGB.mk 0 255 255 ->
  desaturate options (Some r, Some g, Some b)
  = channels (RGB.mk (nearEnd r) (nearEnd g) (nearEnd b)).
Proof.
  intros Hon Hr Hg Hb Hcyan. unfold desaturate. rewrite Hon. cbn [closestChannels].
  f_equal. apply getClosestColor_unique.
  - unfold nearEnd in *.
    destruct (r <? 128), (g <? 128), (b <? 128); cbn; tauto.
  - intros q Hq Hne. unfold radicand_of.
    pose proof (nearEnd_nearer r Hr) as Fr. pose proof (nearEnd_nearer g Hg) as Fg.
    pose proof (nearEnd_nearer b Hb) as Fb. unfold nearEnd in *.
    destruct (r <? 128), (g <? 128), (b <? 128);
      cbn in Hq; repeat (destruct Hq as [<- | Hq]; [|]); try contradiction;
      cbn [RGB.r RGB.g RGB.b]; try congruence;
      change (255 - 0) with 255 in *; change (255 - 255) with 0 in *; lia.
Qed.

Lemma desaturate_is_threshold_witness :
  desaturate (Host.options 1 rectangle none [] 0 true false) (Some 200, Some 90, Some 40)
  = channels (RGB.mk (nearEnd 200) (nearEnd 90) (nearEnd 40)).
Proof.
  apply desaturate_is_threshold; try reflexivity; try lia. discriminate.
Defined.

(** ** A uniform image *)








(** * Properties of the application *)

(** ** Colours and their hexadecimal names *)

Lemma hexValue_range (c : Ascii.ascii) (v : Z) : App.hexValue c = Some v -> 0 <= v <= 15.
Proof.
  unfold App.hexValue. cbv zeta. set (code := Z.of_N (Ascii.N_of_ascii c)).
  destruct (Z.leb_spec 48 code), (Z.leb_spec code 57), (Z.leb_spec 97 code),
    (Z.leb_spec code 102), (Z.leb_spec 65 code), (Z.leb_spec code 70);
    cbn [andb]; intros Hv; try discriminate Hv; injection Hv as <-; lia.
Qed.

Lemma parseInt16_range (hi lo : Ascii.ascii) (v : Z) :
  App.parseInt16 hi lo = Some v -> 0 <= v <= 255.
Proof.
  unfold App.parseInt16.
  destruct (App.hexValue hi) as [h|] eqn:Eh; [|discriminate].
  destruct (App.hexValue lo) as [l|] eqn:El; [|discriminate].
  apply hexValue_range in Eh. apply hexValue_range in El.
  intros H. assert (v = 16 * h + l) by congruence. lia.
Qed.

Lemma hexValue_hexDigit (d : Z) : 0 <= d <= 15 -> App.hexValue (App.hexDigit d) = Some d.
Proof.
  intros Hd.
  assert (H : d = 0 \/ d = 1 \/ d = 2 \/ d = 3 \/ d = 4 \/ d = 5 \/ d = 6 \/ d = 7
              \/ d = 8 \/ d = 9 \/ d = 10 \/ d = 11 \/ d = 12 \/ d = 13 \/ d = 14 \/ d = 15)
    by lia.
  repeat (destruct H as [-> | H]; [reflexivity|]). subst d. reflexivity.
Qed.

Lemma parseInt16_digits (v : Z) :
  0 <= v <= 255 -> App.parseInt16 (App.hexDigit (v / 16)) (App.hexDigit (v mod 16)) = Some v.
Proof.
  intros Hv. unfold App.parseInt16.
  rewrite !hexValue_hexDigit.
  - f_equal. pose proof (Z.div_mod v 16). lia.
  - pose proof (Z.mod_pos_bound v 16). lia.
  - split; [apply Z.div_pos; lia | apply Z.lt_succ_r, Z.div_lt_upper_bound; lia].
Qed.

Lemma int32_small (n : Z) : - 2 ^ 31 <= n < 2 ^ 31 -> App.int32 n = n.
Proof. intros Hn. unfold App.int32. rewrite Z.mod_small; lia. Qed.

Lemma digits16_more (fuel : nat) (n : Z) (acc : String.string) :
  16 <= n ->
  App.digits16 (S fuel) n acc
  = App.digits16 fuel (n / 16) (String.String (App.hexDigit (n mod 16)) acc).
Proof.
  intros Hn. cbn [App.digits16]. cbv zeta.
  destruct (Z.eqb_spec (n / 16) 0) as [E|]; [|reflexivity].
  exfalso. assert (1 <= n / 16) by (apply Z.div_le_lower_bound; lia). lia.
Qed.

Lemma digits16_last (fuel : nat) (n : Z) (acc : String.string) :
  0 <= n < 16 ->
  App.digits16 (S fuel) n acc = String.String (App.hexDigit n) acc.
Proof.
  intros Hn. cbn [App.digits16]. cbv zeta.
  rewrite Z.mod_small, Z.div_small by lia. reflexivity.
Qed.

Section HexNames.

Import Ascii.

Lemma append_assoc (a b c : String.string) :
  String.append (String.append a b) c = String.append a (String.append b c).
Proof. induction a as [|ch a IH]; cbn [String.append]; [reflexivity | now rewrite IH]. Qed.

(** The digits of a number with a leading 1 and [k] more digits. *)
Lemma digits16_lead (k : nat) : forall (fuel : nat) (x : Z) (acc : String.string),
  0 <= x < 16 ^ Z.of_nat k -> (k <= fuel)%nat ->
  App.digits16 (S fuel) (16 ^ Z.of_nat k + x) acc
  = String.String (App.hexDigit 1) (String.append (hexPad k x) acc).
Proof.
  induction k as [|k IH]; intros fuel x acc Hx Hfuel.
  - cbn in Hx. replace x with 0 by lia. rewrite digits16_last by (cbn; lia). reflexivity.
  - rewrite Nat2Z.inj_succ, Z.pow_succ_r in * by lia.
    destruct fuel as [|fuel]; [lia|].
    assert (Hpow : 0 < 16 ^ Z.of_nat k) by (apply Z.pow_pos_nonneg; lia).
    rewrite digits16_more by lia.
    set (p := 16 ^ Z.of_nat k) in *.
    replace ((16 * p + x) / 16) with (p + x / 16) by (Z.div_mod_to_equations; lia).
    replace ((16 * p + x) mod 16) with (x mod 16) by (Z.div_mod_to_equations; lia).
    rewrite IH.
    + cbn [hexPad]. now rewrite append_assoc.
    + split; [apply Z.div_pos; lia | apply Z.div_lt_upper_bound; lia].
    + lia.
Qed.

Lemma hex_places (r g b : Z) :
  0 <= r <= 255 -> 0 <= g <= 255 -> 0 <= b <= 255 ->
  let x := r * 65536 + g * 256 + b in
  x mod 16 = b mod 16
  /\ x / 16 mod 16 = b / 16
  /\ x / 16 / 16 mod 16 = g mod 16
  /\ x / 16 / 16 / 16 mod 16 = g / 16
  /\ x / 16 / 16 / 16 / 16 mod 16 = r mod 16
  /\ x / 16 / 16 / 16 / 16 / 16 mod 16 = r / 16.
Proof.
  intros Hr Hg Hb x.
  assert (E1 : x / 16 = r * 4096 + g * 16 + b / 16)
    by (unfold x; Z.div_mod_to_equations; lia).
  assert (E2 : x / 16 / 16 = r * 256 + g) by (rewrite E1; Z.div_mod_to_equations; lia).
  assert (E3 : x / 16 / 16 / 16 = r * 16 + g / 16)
    by (rewrite E2; Z.div_mod_to_equations; lia).
  assert (E4 : x / 16 / 16 / 16 / 16 = r) by (rewrite E3; Z.div_mod_to_equations; lia).
  rewrite E4, E3, E2, E1. unfold x.
  repeat split; Z.div_mod_to_equations; lia.
Qed.

Lemma rgbToHex_digits (r g b : Z) :
  0 <= r <= 255 -> 0 <= g <= 255 -> 0 <= b <= 255 ->
  App.rgbToHex r g b
  = String.String "#"%char
      (String.String (App.hexDigit (r / 16)) (String.String (App.hexDigit (r mod 16))
        (String.String (App.hexDigit (g / 16)) (String.String (App.hexDigit (g mod 16))
          (String.String (App.hexDigit (b / 16)) (String.String (App.hexDigit (b mod 16))
            String.EmptyString)))))).
Proof.
  intros Hr Hg Hb. unfold App.rgbToHex, App.shl.
  change (2 ^ 24) with 16777216. change (2 ^ 16) with 65536. change (2 ^ 8) with 256.
  assert (H31 : 2 ^ 31 = 2147483648) by reflexivity.
  rewrite !int32_small by (rewrite H31; lia).
  set (x := r * 65536 + g * 256 + b).
  assert (H6 : 16 ^ Z.of_nat 6 = 16777216) by reflexivity.
  replace (1 * 16777216 + r * 65536 + g * 256 + b) with (16 ^ Z.of_nat 6 + x)
    by (rewrite H6; unfold x; lia).
  assert (Hx : 0 <= x < 16 ^ Z.of_nat 6) by (rewrite H6; unfold x; lia).
  unfold App.toString16.
  replace (16 ^ Z.of_nat 6 + x <? 0) with false by (symmetry; apply Z.ltb_ge; lia).
  replace (Z.log2 (16 ^ Z.of_nat 6 + x)) with 24.
  2:{ symmetry. apply Z.log2_unique; [lia|]. rewrite H6 in *.
      change (2 ^ 24) with 16777216. change (2 ^ (24 + 1)) with 33554432. lia. }
  change (Z.to_nat 24) with 24%nat.
  rewrite digits16_lead by (assumption || lia).
  cbn [App.slice1 hexPad String.append].
  destruct (hex_places r g b Hr Hg Hb) as (D0 & D1 & D2 & D3 & D4 & D5).
  fold x in D0, D1, D2, D3, D4, D5.
  rewrite D0, D1, D2, D3, D4, D5. reflexivity.
Qed.

(** X21.  For channels of 0..255, [rgbToHex] gives the number sign and six
    lower-case hexadecimal digits, two for each channel, and [hexToRgb]
    reads the colour back from them. *)
Theorem hex_round_trip (r g b : Z) :
  0 <= r <= 255 -> 0 <= g <= 255 -> 0 <= b <= 255 ->
  App.hexToRgb (App.rgbToHex r g b) = RGB.mk r g b
  /\ String.length (App.rgbToHex r g b) = 7%nat
  /\ String.get 0 (App.rgbToHex r g b) = Some "#"%char
  /\ forall i c, String.get (S i) (App.rgbToHex r g b) = Some c ->
       exists d, 0 <= d <= 15 /\ c = App.hexDigit d.
Proof.
  intros Hr Hg Hb. rewrite rgbToHex_digits by assumption.
  assert (Hdigit : forall v, 0 <= v <= 255 -> 0 <= v / 16 <= 15 /\ 0 <= v mod 16 <= 15).
  { intros v Hv. Z.div_mod_to_equations. lia. }
  destruct (Hdigit r Hr) as [Hr1 Hr0], (Hdigit g Hg) as [Hg1 Hg0], (Hdigit b Hb) as [Hb1 Hb0].
  split; [|split; [reflexivity|split; [reflexivity|]]].
  - unfold App.hexToRgb.
    change (App.stripHash (String.String "#"%char ?s)) with s.
    cbn [App.stripHash App.groups]. rewrite !parseInt16_digits by assumption. reflexivity.
  - intros i c Hc.
    do 6 (destruct i as [|i];
          [cbn [String.get] in Hc; injection Hc as <-;
           eexists; split; [|reflexivity]; assumption|]).
    cbn [String.get] in Hc. destruct i; discriminate Hc.
Qed.

Lemma hex_round_trip_witness :
  App.hexToRgb (App.rgbToHex 255 127 0) = RGB.mk 255 127 0.
Proof.
  apply (hex_round_trip 255 127 0); lia.
Defined.

(** Past 255 the digits of a channel run into those of its neighbour: the
    colour (256, 0, 0) is named as black. *)
Example rgbToHex_out_of_range :
  App.hexToRgb (App.rgbToHex 256 0 0) = RGB.mk 0 0 0.
Proof. vm_compute. reflexivity. Qed.

Lemma groups_range (body : String.string) (r g b : Z) :
  App.groups body = Some (r, g, b) -> inRange (RGB.mk r g b).
Proof.
  destruct body as [|r1 [|r0 [|g1 [|g0 [|b1 [|b0 [|c rest]]]]]]]; try discriminate.
  cbn [App.groups].
  destruct (App.parseInt16 r1 r0) as [r'|] eqn:Er; [|discriminate].
  destruct (App.parseInt16 g1 g0) as [g'|] eqn:Eg; [|discriminate].
  destruct (App.parseInt16 b1 b0) as [b'|] eqn:Eb; [|discriminate].
  intros H. assert (r = r' /\ g = g' /\ b = b') as (-> & -> & ->)
    by (repeat split; congruence).
  apply parseInt16_range in Er, Eg, Eb. repeat split; cbn; lia.
Qed.

Lemma groups_length (body : String.string) :
  String.length body <> 6%nat -> App.groups body = None.
Proof.
  destruct body as [|r1 [|r0 [|g1 [|g0 [|b1 [|b0 [|c rest]]]]]]]; try reflexivity.
  cbn [String.length]. congruence.
Qed.

Lemma stripHash_other (c : Ascii.ascii) (rest : String.string) :
  c <> Ascii.ascii_of_nat 35 ->
  App.stripHash (String.String c rest) = String.String c rest.
Proof.
  destruct c as [[] [] [] [] [] [] [] []]; intros Hc; try reflexivity.
  exfalso. apply Hc. reflexivity.
Qed.

Lemma hexToRgb_inRange (hex : String.string) : inRange (App.hexToRgb hex).
Proof.
  unfold App.hexToRgb.
  destruct (App.groups (App.stripHash hex)) as [[[r g] b]|] eqn:E.
  - eapply groups_range. exact E.
  - repeat split; cbn; lia.
Qed.

(** X22.  [hexToRgb] gives a colour with channels of 0..255 for every
    string; the number sign in front of six characters is optional; and a
    string that is neither six nor seven characters long is read as
    black. *)
Theorem hexToRgb_total (hex : String.string) :
  inRange (App.hexToRgb hex)
  /\ (String.length hex = 6%nat ->
      App.hexToRgb (String.String "#"%char hex) = App.hexToRgb hex)
  /\ (String.length hex <> 6%nat -> String.length hex <> 7%nat ->
      App.hexToRgb hex = black).
Proof.
  split; [apply hexToRgb_inRange|split].
  - intros Hlen. unfold App.hexToRgb at 1.
    change (App.stripHash (String.String "#"%char hex)) with hex.
    unfold App.hexToRgb.
    destruct hex as [|c rest]; [discriminate Hlen|].
    destruct (Ascii.ascii_dec c "#"%char) as [-> | Hc].
    + change (App.stripHash (String.String "#"%char rest)) with rest.
      rewrite (groups_length rest) by (cbn [String.length] in Hlen; lia).
      destruct rest as [|r0 [|g1 [|g0 [|b1 [|b0 [|c rest]]]]]]; reflexivity.
    + now rewrite stripHash_other.
  - intros H6 H7. unfold App.hexToRgb.
    rewrite groups_length; [reflexivity|].
    destruct hex as [|c rest]; [cbn; lia|].
    destruct (Ascii.ascii_dec c "#"%char) as [-> | Hc].
    + change (App.stripHash (String.String "#"%char rest)) with rest.
      cbn [String.length] in H7. lia.
    + now rewrite stripHash_other.
Qed.

Lemma hexToRgb_total_witness :
  App.hexToRgb (String.String "#"%char (hexPad 6 16744192))
  = App.hexToRgb (hexPad 6 16744192).
Proof.
  apply (proj1 (proj2 (hexToRgb_total (hexPad 6 16744192)))). reflexivity.
Defined.

End HexNames.

(** ** Editing the palettes *)

Lemma sameColor_eq (rgb p : RGB.t) : App.sameColor rgb p = true <-> p = rgb.
Proof.
  unfold App.sameColor. rewrite !andb_true_iff, !Z.eqb_eq.
  destruct rgb as [r g b], p as [r' g' b']. cbn [RGB.r RGB.g RGB.b].
  split; [intros [[-> ->] ->]; reflexivity | intros H; injection H as -> -> ->; auto].
Qed.

Lemma existsb_sameColor (rgb : RGB.t) (palette : list RGB.t) :
  existsb (App.sameColor rgb) palette = true <-> In rgb palette.
Proof.
  rewrite existsb_exists. split.
  - intros (p & Hin & Hp). apply sameColor_eq in Hp. now subst.
  - intros Hin. exists rgb. split; [exact Hin | now apply sameColor_eq].
Qed.

(** X23.  [addPopColor] on a palette of 1 to 30 different colours gives a
    palette of 1 to 30 different colours again: the palette itself when it
    is full or has the colour already, and otherwise the palette with the
    colour of the given name at its end; the new colour has channels of
    0..255 as the others. *)
Theorem addPopColor_keeps_palette (popPalette : list RGB.t) (hex : String.string) :
  (1 <= length popPalette <= 30)%nat -> NoDup popPalette ->
  let added := App.addPopColor popPalette hex in
  (1 <= length added <= 30)%nat
  /\ NoDup added
  /\ (Forall inRange popPalette -> Forall inRange added)
  /\ added = (if (length popPalette <? 30)%nat
                 && negb (existsb (App.sameColor (App.hexToRgb hex)) popPalette)
              then popPalette ++ [App.hexToRgb hex] else popPalette)
  /\ ((length popPalette < 30)%nat -> In (App.hexToRgb hex) added).
Proof.
  intros Hlen Hnodup added. unfold added, App.addPopColor. cbv zeta.
  destruct (Z.geb_spec (Z.of_nat (length popPalette)) 30) as [Hfull|Hroom].
  - replace (length popPalette <? 30)%nat with false by (symmetry; apply Nat.ltb_ge; lia).
    cbn [andb]. repeat split; try tauto; lia.
  - replace (length popPalette <? 30)%nat with true by (symmetry; apply Nat.ltb_lt; lia).
    cbn [andb].
    destruct (existsb (App.sameColor (App.hexToRgb hex)) popPalette) eqn:E; cbn [negb].
    + apply existsb_sameColor in E. repeat split; try tauto; lia.
    + assert (Hnew : ~ In (App.hexToRgb hex) popPalette).
      { intros Hin. apply existsb_sameColor in Hin. congruence. }
      rewrite length_app. cbn [length]. repeat split; try lia.
      * apply NoDup_app; [exact Hnodup | repeat constructor; intros [] | ].
        intros c Hc [<- | []]. contradiction.
      * intros Hall. apply Forall_app. split; [exact Hall|].
        constructor; [apply hexToRgb_inRange | constructor].
      * intros _. apply in_or_app. right. now left.
Qed.

Lemma addPopColor_keeps_palette_witness :
  In (App.hexToRgb (App.rgbToHex 1 2 3))
     (App.addPopColor App.RAINBOW_PALETTE (App.rgbToHex 1 2 3)).
Proof.
  assert (Hlen : (1 <= length App.RAINBOW_PALETTE <= 30)%nat) by (cbn; lia).
  assert (Hnodup : NoDup App.RAINBOW_PALETTE).
  { repeat constructor; cbn; intros H;
      repeat (destruct H as [H | H]; [discriminate H|]); exact H. }
  apply (proj2 (proj2 (proj2 (proj2
           (addPopColor_keeps_palette App.RAINBOW_PALETTE (App.rgbToHex 1 2 3)
              Hlen Hnodup))))).
  cbn. lia.
Defined.

(** Filtering an array by index drops the entry at the index. *)
Lemma filter_by_index {A} (index : Z) (l : list A) : forall (start : nat),
  map snd (List.filter (fun entry : Z * A => negb (fst entry =? index))
                       (combine (map Z.of_nat (seq start (length l))) l))
  = if (Z.of_nat start <=? index) && (index <? Z.of_nat (start + length l))
    then firstn (Z.to_nat index - start) l ++ skipn (S (Z.to_nat index - start)) l
    else l.
Proof.
  induction l as [|a l IH]; intros start.
  - cbn [length seq map combine List.filter].
    destruct (_ && _); [|reflexivity]. now rewrite firstn_nil.
  - cbn [length seq map combine List.filter fst].
    destruct (Z.eqb_spec (Z.of_nat start) index) as [E|E]; cbn [negb map snd];
      rewrite IH.
    + replace ((Z.of_nat start <=? index) && (index <? Z.of_nat (start + S (length l))))
        with true by (symmetry; apply andb_true_iff; rewrite Z.leb_le, Z.ltb_lt; lia).
      replace ((Z.of_nat (S start) <=? index) && (index <? Z.of_nat (S start + length l)))
        with false by (symmetry; apply andb_false_iff; left; apply Z.leb_gt; lia).
      replace (Z.to_nat index - start)%nat with 0%nat by lia. reflexivity.
    + destruct (Z.leb_spec (Z.of_nat start) index) as [Hlo|Hlo];
        destruct (Z.ltb_spec index (Z.of_nat (start + S (length l)))) as [Hhi|Hhi];
        cbn [andb].
      * replace ((Z.of_nat (S start) <=? index) && (index <? Z.of_nat (S start + length l)))
          with true by (symmetry; apply andb_true_iff; rewrite Z.leb_le, Z.ltb_lt; lia).
        replace (Z.to_nat index - start)%nat with (S (Z.to_nat index - S start)) by lia.
        reflexivity.
      * replace ((Z.of_nat (S start) <=? index) && (index <? Z.of_nat (S start + length l)))
          with false by (symmetry; apply andb_false_iff; right; apply Z.ltb_ge; lia).
        reflexivity.
      * replace ((Z.of_nat (S start) <=? index) && (index <? Z.of_nat (S start + length l)))
          with false by (symmetry; apply andb_false_iff; left; apply Z.leb_gt; lia).
        reflexivity.
      * replace ((Z.of_nat (S start) <=? index) && (index <? Z.of_nat (S start + length l)))
          with false by (symmetry; apply andb_false_iff; left; apply Z.leb_gt; lia).
        reflexivity.
Qed.

Lemma NoDup_drop {A} (l : list A) (i : nat) :
  NoDup l -> NoDup (firstn i l ++ skipn (S i) l).
Proof.
  intros H. rewrite <- (firstn_skipn i l) in H.
  destruct (skipn i l) as [|a rest] eqn:E.
  - replace (skipn (S i) l) with (@nil A); [exact H|].
    symmetry. apply skipn_all2. 
    assert (length (skipn i l) = 0%nat) by (rewrite E; reflexivity).
    rewrite length_skipn in *. lia.
  - replace (skipn (S i) l) with rest.
    + eapply NoDup_remove_1. exact H.
    + change (S i) with (1 + i)%nat. rewrite <- skipn_skipn, E. reflexivity.
Qed.

Lemma In_drop {A} (l : list A) (c : A) : forall i : nat,
  In c (firstn i l ++ skipn (S i) l) -> In c l.
Proof.
  induction l as [|a l IH]; intros i.
  - rewrite firstn_nil. cbn. tauto.
  - destruct i as [|i].
    + cbn [firstn skipn app]. now right.
    + cbn [firstn skipn app]. intros [-> | Hin]; [now left | right; eapply IH; exact Hin].
Qed.

(** X24.  [removePopColor] never empties the palette: a palette of one
    colour is left as it is; from a longer palette the entry at the index is
    dropped, the others keeping their order, and an index that names no entry
    changes nothing.  Different colours stay different. *)
Theorem removePopColor_keeps_one (popPalette : list RGB.t) (index : Z) :
  (1 <= length popPalette)%nat ->
  let removed := App.removePopColor popPalette index in
  (1 <= length removed <= length popPalette)%nat
  /\ removed = (if (2 <=? length popPalette)%nat
                   && (0 <=? index) && (index <? Z.of_nat (length popPalette))
                then firstn (Z.to_nat index) popPalette
                     ++ skipn (S (Z.to_nat index)) popPalette
                else popPalette)
  /\ ((2 <= length popPalette)%nat -> 0 <= index < Z.of_nat (length popPalette) ->
      S (length removed) = length popPalette)
  /\ (forall c, In c removed -> In c popPalette)
  /\ (NoDup popPalette -> NoDup removed).
Proof.
  intros Hlen removed.
  assert (Hremoved : removed
            = (if (2 <=? length popPalette)%nat
                  && (0 <=? index) && (index <? Z.of_nat (length popPalette))
               then firstn (Z.to_nat index) popPalette
                    ++ skipn (S (Z.to_nat index)) popPalette
               else popPalette)).
  { unfold removed, App.removePopColor.
    destruct (Z.leb_spec (Z.of_nat (length popPalette)) 1) as [Hone|Hmore].
    - replace (2 <=? length popPalette)%nat with false
        by (symmetry; apply Nat.leb_gt; lia). reflexivity.
    - replace (2 <=? length popPalette)%nat with true
        by (symmetry; apply Nat.leb_le; lia).
      unfold JS.range. rewrite Nat2Z.id, (filter_by_index index popPalette 0).
      cbn [andb Z.of_nat Nat.add]. now rewrite Nat.sub_0_r. }
  assert (Hdrop : forall i : nat, (i < length popPalette)%nat ->
            S (length (firstn i popPalette ++ skipn (S i) popPalette)) = length popPalette).
  { intros i Hi. rewrite length_app, length_firstn, length_skipn. lia. }
  split; [|split; [exact Hremoved|split; [|split]]].
  - rewrite Hremoved.
    destruct (Nat.leb_spec 2 (length popPalette)) as [H2|H2]; cbn [andb]; [|lia].
    destruct (Z.leb_spec 0 index) as [H0|H0]; cbn [andb]; [|lia].
    destruct (Z.ltb_spec index (Z.of_nat (length popPalette))) as [H1|H1]; [|lia].
    specialize (Hdrop (Z.to_nat index) ltac:(lia)). lia.
  - intros H2 Hindex. rewrite Hremoved.
    replace (2 <=? length popPalette)%nat with true by (symmetry; apply Nat.leb_le; lia).
    replace (0 <=? index) with true by (symmetry; apply Z.leb_le; lia).
    replace (index <? Z.of_nat (length popPalette)) with true
      by (symmetry; apply Z.ltb_lt; lia).
    cbn [andb]. apply Hdrop. lia.
  - intros c. rewrite Hremoved. destruct (_ && _); [|auto].
    apply In_drop.
  - intros Hnodup. rewrite Hremoved. destruct (_ && _); [|exact Hnodup].
    now apply NoDup_drop.
Qed.

Lemma removePopColor_keeps_one_witness :
  (1 <= length (App.removePopColor App.RGB_PALETTE 3) <= length App.RGB_PALETTE)%nat.
Proof.
  apply (proj1 (removePopColor_keeps_one App.RGB_PALETTE 3 ltac:(cbn; lia))).
Defined.

(** X25.  [updateNoirColor] at an index of the palette replaces that entry
    by the colour of the given name and nothing else: the palette keeps its
    length, has no hole, and its other entries are the ones it had.  At an
    index past the end the palette grows to the index, with holes in
    between; at a negative index it is copied unchanged. *)
Theorem updateNoirColor_replaces (noirPalette : list RGB.t) (index : Z)
    (hex : String.string) :
  let newNoir := App.updateNoirColor noirPalette index hex in
  (0 <= index < Z.of_nat (length noirPalette) ->
   length newNoir = length noirPalette
   /\ nth_error newNoir (Z.to_nat index) = Some (Some (App.hexToRgb hex))
   /\ (forall i, i <> Z.to_nat index ->
         nth_error newNoir i = option_map Some (nth_error noirPalette i))
   /\ exists palette,
        newNoir = map Some palette
        /\ (Forall inRange noirPalette -> Forall inRange palette))
  /\ (Z.of_nat (length noirPalette) <= index ->
      Z.of_nat (length newNoir) = index + 1
      /\ nth_error newNoir (Z.to_nat index) = Some (Some (App.hexToRgb hex))
      /\ forall i, (length noirPalette <= i < Z.to_nat index)%nat ->
           nth_error newNoir i = Some None)
  /\ (index < 0 -> newNoir = map Some noirPalette).
Proof.
  intros newNoir. unfold newNoir, App.updateNoirColor, App.assign. cbv zeta.
  rewrite length_map. split; [|split].
  - intros Hin.
    replace (index <? 0) with false by (symmetry; apply Z.ltb_ge; lia).
    replace (index <? Z.of_nat (length noirPalette)) with true
      by (symmetry; apply Z.ltb_lt; lia).
    set (i := Z.to_nat index). assert (Hi : (i < length noirPalette)%nat) by lia.
    assert (Hfirst : length (firstn i (map Some noirPalette)) = i)
      by (rewrite length_firstn, length_map; lia).
    split; [|split; [|split]].
    + rewrite length_app. cbn [length]. rewrite Hfirst, length_skipn, length_map. lia.
    + rewrite nth_error_app2 by lia. rewrite Hfirst, Nat.sub_diag. reflexivity.
    + intros j Hj. rewrite <- nth_error_map.
      destruct (Nat.lt_ge_cases j i) as [Hlt|Hge].
      * rewrite nth_error_app1 by lia. rewrite nth_error_firstn.
        replace (j <? i)%nat with true by (symmetry; apply Nat.ltb_lt; lia). reflexivity.
      * rewrite nth_error_app2 by lia. rewrite Hfirst.
        replace (j - i)%nat with (S (j - S i)) by lia. cbn [nth_error].
        rewrite nth_error_skipn. f_equal. lia.
    + exists (firstn i noirPalette ++ App.hexToRgb hex :: skipn (S i) noirPalette). split.
      * rewrite map_app. cbn [map]. now rewrite firstn_map, skipn_map.
      * intros Hall. rewrite Forall_forall in *. intros c Hc.
        apply in_app_or in Hc as [Hc | [<- | Hc]].
        -- apply Hall. apply (In_drop noirPalette c i). apply in_or_app. now left.
        -- apply hexToRgb_inRange.
        -- apply Hall. apply (In_drop noirPalette c i). apply in_or_app. now right.
  - intros Hpast.
    replace (index <? 0) with false by (symmetry; apply Z.ltb_ge; lia).
    replace (index <? Z.of_nat (length noirPalette)) with false
      by (symmetry; apply Z.ltb_ge; lia).
    set (n := length noirPalette) in *. set (i := Z.to_nat index).
    assert (Hi : (n <= i)%nat) by lia.
    split; [|split].
    + rewrite !length_app, length_map, repeat_length. cbn [length]. fold n. lia.
    + rewrite nth_error_app2 by (rewrite length_map; fold n; lia).
      rewrite length_map. fold n.
      rewrite nth_error_app2 by (rewrite repeat_length; lia).
      rewrite repeat_length, Nat.sub_diag. reflexivity.
    + intros j Hj.
      rewrite nth_error_app2 by (rewrite length_map; fold n; lia).
      rewrite length_map. fold n.
      rewrite nth_error_app1 by (rewrite repeat_length; lia).
      apply nth_error_repeat. lia.
  - intros Hneg. replace (index <? 0) with true by (symmetry; apply Z.ltb_lt; lia).
    reflexivity.
Qed.

Lemma updateNoirColor_replaces_witness :
  length (App.updateNoirColor [black; white] 1 (App.rgbToHex 30 41 59))
  = length [black; white].
Proof.
  apply (proj1 (updateNoirColor_replaces [black; white] 1 (App.rgbToHex 30 41 59))).
  cbn. lia.
Defined.

(** ** Panning *)

(** X26.  The panning buttons keep the pan within [-1/2, 1/2] in both
    directions: each moves one coordinate by at most a tenth toward its
    side and stops at the edge, and the centre button puts both at 0. *)
Theorem pan_stays_in_range (p : App.Pan) :
  (- (1 # 2) <= App.x p <= 1 # 2)%Q -> (- (1 # 2) <= App.y p <= 1 # 2)%Q ->
  Forall (fun q => (- (1 # 2) <= App.x q <= 1 # 2 /\ - (1 # 2) <= App.y q <= 1 # 2)%Q)
         [App.panUp p; App.panLeft p; App.panCentre p; App.panRight p; App.panDown p]
  /\ (App.x (App.panUp p) = App.x p
      /\ App.y p - (1 # 10) <= App.y (App.panUp p) <= App.y p)%Q
  /\ (App.y (App.panLeft p) = App.y p
      /\ App.x p - (1 # 10) <= App.x (App.panLeft p) <= App.x p)%Q
  /\ (App.y (App.panRight p) = App.y p
      /\ App.x p <= App.x (App.panRight p) <= App.x p + (1 # 10))%Q
  /\ (App.x (App.panDown p) = App.x p
      /\ App.y p <= App.y (App.panDown p) <= App.y p + (1 # 10))%Q
  /\ (App.x (App.panCentre p) == 0 /\ App.y (App.panCentre p) == 0)%Q.
Proof.
  intros Hx Hy. unfold App.panUp, App.panLeft, App.panCentre, App.panRight, App.panDown.
  cbn [App.x App.y].
  assert (Hmax : forall v, (- (1 # 2) <= v <= 1 # 2)%Q ->
            (- (1 # 2) <= Qmax (- 0.5) (v - 0.1) <= 1 # 2
             /\ v - (1 # 10) <= Qmax (- 0.5) (v - 0.1) <= v)%Q).
  { intros v Hv.
    pose proof (Q.le_max_l (- 0.5) (v - 0.1)).
    pose proof (Q.le_max_r (- 0.5) (v - 0.1)).
    assert (Qmax (- 0.5) (v - 0.1) <= v)%Q by (apply Q.max_lub; lra).
    repeat split; lra. }
  assert (Hmin : forall v, (- (1 # 2) <= v <= 1 # 2)%Q ->
            (- (1 # 2) <= Qmin 0.5 (v + 0.1) <= 1 # 2
             /\ v <= Qmin 0.5 (v + 0.1) <= v + (1 # 10))%Q).
  { intros v Hv.
    pose proof (Q.le_min_l 0.5 (v + 0.1)).
    pose proof (Q.le_min_r 0.5 (v + 0.1)).
    assert (v <= Qmin 0.5 (v + 0.1))%Q by (apply Q.min_glb; lra).
    repeat split; lra. }
  destruct (Hmax _ Hx) as [? ?], (Hmax _ Hy) as [? ?], (Hmin _ Hx) as [? ?],
    (Hmin _ Hy) as [? ?].
  split; [|repeat split; tauto || reflexivity].
  repeat (constructor; [cbn [App.x App.y]; split; first [assumption | lra]|]). constructor.
Qed.

Lemma pan_stays_in_range_witness :
  (App.x (App.panUp (App.Build_Pan (1 # 2) (- (1 # 2)))) = 1 # 2
   /\ - (1 # 2) - (1 # 10) <= App.y (App.panUp (App.Build_Pan (1 # 2) (- (1 # 2))))
      <= - (1 # 2))%Q.
Proof.
  apply (proj1 (proj2 (pan_stays_in_range (App.Build_Pan (1 # 2) (- (1 # 2)))
                         ltac:(cbn; lra) ltac:(cbn; lra)))).
Defined.

(** ** The palette handed to the engine *)

Lemma builtin_palettes :
  Forall (fun palette => palette <> [] /\ Forall inRange palette /\ NoDup palette)
         [App.RAINBOW_PALETTE; App.RGB_PALETTE; App.YCM_PALETTE; App.REGIA_PALETTE;
          App.SUNSET_PALETTE; App.ELECTRIC_PALETTE; App.RETRO_PALETTE].
Proof.
  repeat (constructor;
          [split; [discriminate|split];
           [repeat (constructor; [repeat split; cbn; lia|]); constructor
           |repeat (constructor;
                    [cbn; intros H; repeat (destruct H as [H | H]; [discriminate H|]);
                     exact H|]); constructor]|]).
  constructor.
Qed.

(** X27.  In a state where the noir palette and the pop-art palette have
    entries and the pop-art scheme is one of 0..6 (as in the initial state),
    the palette the effect hands to the engine is empty only for the filter
    [none], which ignores it; its colours have channels of 0..255 when those
    of the two editable palettes have; so the style filter of the engine
    returns for every colour of 0..255 and never throws; the shapes the
    engine lacks are drawn as rectangles.  The Pop Art button keeps the scheme
    in 0..6, and a scheme outside 0..6 would leave pop-art without palette. *)
Theorem app_palette_fits_engine (st : App.State) :
  App.noirPalette st <> [] -> App.popPalette st <> [] ->
  0 <= App.popArtScheme st < 7 ->
  let options := App.engineOptions st in
  (palette options = [] <-> filter options = none)
  /\ (Forall inRange (App.noirPalette st) -> Forall inRange (App.popPalette st) ->
      Forall inRange (palette options))
  /\ (forall rgb tR tG tB,
        0 <= tR <= 255 -> 0 <= tG <= 255 -> 0 <= tB <= 255 ->
        exists out, styleFilter options rgb (Some tR, Some tG, Some tB) = Normal out)
  /\ (shape options = rectangle <->
      App.shape st = App.paper \/ App.shape st = App.custom
      \/ App.shape st = App.engine rectangle)
  /\ (fst (App.clickPopArt (App.filter st, App.popArtScheme st)) = popart
      /\ 0 <= snd (App.clickPopArt (App.filter st, App.popArtScheme st)) < 7)
  /\ (forall scheme noirPalette popPalette,
        scheme < 0 \/ 6 < scheme ->
        App.activePalette popart scheme noirPalette popPalette = []).
Proof.
  intros Hnoir Hpop Hscheme options.
  pose proof builtin_palettes as Hbuiltin.
  repeat match type of Hbuiltin with
         | Forall _ (_ :: _) =>
             let H := fresh "Hp" in
             apply Forall_cons_iff in Hbuiltin as [H Hbuiltin]
         end.
  assert (Hcases : App.popArtScheme st = 0 \/ App.popArtScheme st = 1
                   \/ App.popArtScheme st = 2 \/ App.popArtScheme st = 3
                   \/ App.popArtScheme st = 4 \/ App.popArtScheme st = 5
                   \/ App.popArtScheme st = 6) by lia.
  assert (Hne : filter options <> none -> palette options <> []).
  { unfold options, App.engineOptions. cbn [filter palette]. unfold App.activePalette.
    destruct (App.filter st); try congruence; intros _; [|discriminate].
    repeat (destruct Hcases as [-> | Hcases]; [cbn; tauto || discriminate|]).
    rewrite Hcases. discriminate. }
  split; [|split; [|split; [|split; [|split]]]].
  - split.
    + intros Hempty. destruct (filter options) eqn:E; try reflexivity;
        exfalso; apply Hne; congruence.
    + unfold options, App.engineOptions. cbn [filter palette]. now intros ->.
  - intros Hin1 Hin2. unfold options, App.engineOptions. cbn [palette].
    unfold App.activePalette. destruct (App.filter st); try tauto; [constructor|].
    repeat (destruct Hcases as [-> | Hcases]; [cbn; tauto|]).
    rewrite Hcases. cbn. tauto.
  - intros rgb tR tG tB Hr Hg Hb. apply styleFilter_returns; try assumption.
    intros Hf. apply Hne. destruct Hf as [-> | ->]; discriminate.
  - unfold options, App.engineOptions. cbn [shape]. unfold App.engineShape.
    destruct (App.shape st) as [[] | |]; split; intros H; try tauto; try discriminate H;
      repeat (destruct H as [H | H]; try discriminate H).
  - unfold App.clickPopArt. destruct (App.filter st); cbn [fst snd]; split;
      try reflexivity; try lia.
    rewrite Z.rem_mod_nonneg by lia. apply Z.mod_pos_bound. lia.
  - intros scheme noirPalette popPalette Hout. unfold App.activePalette.
    repeat match goal with
           | |- context [?a =? ?b] => destruct (Z.eqb_spec a b); [lia|]
           end.
    reflexivity.
Qed.

Lemma app_palette_fits_engine_witness :
  palette (App.engineOptions App.initial) = [] <-> filter (App.engineOptions App.initial) = none.
Proof.
  apply (app_palette_fits_engine App.initial); cbn; (discriminate || lia).
Defined.
